(** * Associative containers of the compiler (dataStructures.ts)

    A shallow embedding of the string-keyed map, the integer-keyed map, the
    string set and the generic algorithms written against their contracts,
    together with the record utilities that exchange data with them.  The
    set with a [size] field ([ShimSet]) is the one of the module's other
    revision.

    Conventions of the embedding.
    - A JavaScript value is a [Value]; the numbers that the containers
      hold are the integers and [NaN] (they are only stored and compared).
      The arithmetic of [sortInV8ObjectInsertionOrder] is on doubles
      ([Double]): [parseInt] rounds to the nearest double and can give an
      infinity.
    - An object created with [Object.create(null)] and used as a dictionary
      is a finite map from property names to values ([gmap string Value]);
      [for .. in] enumerates its entries in the order of [map_to_list].  The
      containers promise no enumeration order, and the generic algorithms
      are verified against the container contract ([StringMapLaws]), which
      fixes no order either.
    - A method that mutates [this] is a function returning the new state of
      the object; a callback that assigns captured variables is a function
      on the state of those variables.
    - Object identity ([===] on references) is the equality of locations in
      a store; arrays, which are shared and mutated in place, live in a
      heap. *)

From Stdlib Require Import ZArith String Ascii.
From stdpp Require Import base option list strings pretty gmap fin_maps sorting.

Local Open Scope string_scope.
Local Open Scope Z_scope.
Local Open Scope list_scope.

(** ** Values *)

Definition loc := nat.

Inductive Number :=
  | NaN
  | Integer (z : Z).

Inductive Value :=
  | VUndefined
  | VNull
  | VBoolean (b : bool)
  | VNumber (n : Number)
  | VString (s : string)
  | VObject (l : loc).

#[global] Instance Number_eq_dec : EqDecision Number.
Proof. solve_decision. Defined.

#[global] Instance Value_eq_dec : EqDecision Value.
Proof. solve_decision. Defined.

(** [x === y]: identity of primitives and of references; [NaN] is equal to
    nothing, itself included. *)
Definition strictEquals (x y : Value) : bool :=
  match x, y with
  | VNumber NaN, _ => false
  | _, VNumber NaN => false
  | _, _ => bool_decide (x = y)
  end.

(** ToBoolean, as applied by [if (x)] and [!x]. *)
Definition truthy (x : Value) : bool :=
  match x with
  | VUndefined | VNull => false
  | VBoolean b => b
  | VNumber NaN => false
  | VNumber (Integer z) => negb (z =? 0)
  | VString s => negb (bool_decide (s = ""))
  | VObject _ => true
  end.

Definition typeof (x : Value) : string :=
  match x with
  | VUndefined => "undefined"
  | VNull => "object"
  | VBoolean _ => "boolean"
  | VNumber _ => "number"
  | VString _ => "string"
  | VObject _ => "object"
  end.

(** A variable of object type: [undefined], [null] or a reference. *)
Inductive Ref :=
  | RUndefined
  | RNull
  | RObject (l : loc).

#[global] Instance Ref_eq_dec : EqDecision Ref.
Proof. solve_decision. Defined.

(** [!r] for a variable of object type. *)
Definition Ref_absent (r : Ref) : bool :=
  match r with
  | RObject _ => false
  | _ => true
  end.

(** The state of the objects of one class, by location. *)
Definition Store (A : Type) := loc → A.

(** ** Exceptions *)

Inductive Error :=
  | AssertionFailure
  | TypeError.

Inductive Result (A : Type) :=
  | Ok (a : A)
  | Throw (e : Error).
Arguments Ok {A} a.
Arguments Throw {A} e.

#[global] Instance Result_ret : MRet Result := λ A a, Ok a.

#[global] Instance Result_bind : MBind Result := λ A B k r,
  match r with
  | Ok a => k a
  | Throw e => Throw e
  end.

(** ** Dictionary objects

    [Object.create(null)]: no inherited members, so a property read, [in]
    and [for .. in] see own properties only. *)

Abbreviation Dict := (gmap string Value).

(** [obj[key]] *)
Definition Dict_get (obj : Dict) (key : string) : Value :=
  default VUndefined (obj !! key).

(** [key in obj] *)
Definition Dict_in (key : string) (obj : Dict) : bool :=
  bool_decide (is_Some (obj !! key)).

(** The keys visited by [for (const key in obj)]. *)
Definition Dict_forIn (obj : Dict) : list string := (map_to_list obj).*1.

Definition createObject_null : Dict := ∅.

Definition createDictionaryModeObject : Dict :=
  let map := createObject_null in
  let map := <["__" := VUndefined]> map in
  let map := delete "__" map in
  map.

(** ** The fallback string map *)

Record ShimStringMap := mkShimStringMap { ShimStringMap_data : Dict }.

Definition ShimStringMap_new : ShimStringMap :=
  {| ShimStringMap_data := createDictionaryModeObject |}.

Definition ShimStringMap_clear (this : ShimStringMap) : ShimStringMap :=
  {| ShimStringMap_data := createDictionaryModeObject |}.

Definition ShimStringMap_delete (key : string) (this : ShimStringMap) : ShimStringMap :=
  {| ShimStringMap_data := delete key (ShimStringMap_data this) |}.

Definition ShimStringMap_get (this : ShimStringMap) (key : string) : Value :=
  Dict_get (ShimStringMap_data this) key.

Definition ShimStringMap_has (this : ShimStringMap) (key : string) : bool :=
  Dict_in key (ShimStringMap_data this).

Definition ShimStringMap_set (key : string) (value : Value) (this : ShimStringMap) : ShimStringMap :=
  {| ShimStringMap_data := <[key := value]> (ShimStringMap_data this) |}.

(** [forEach(f)]: [f] runs once per key of [for .. in], on the state [s] of
    the variables it captures. *)
Definition ShimStringMap_forEach {S : Type} (f : Value → string → S → S)
    (this : ShimStringMap) (s : S) : S :=
  foldl (λ s key, f (Dict_get (ShimStringMap_data this) key) key s) s
        (Dict_forIn (ShimStringMap_data this)).

(** ** The host's [Map]

    The built-in class that backs the containers when it exists.  Its
    iterators [keys()], [values()] and [entries()] walk the entries in the
    order in which [forEach] visits them. *)

Record NativeMap := mkNativeMap { NativeMap_entries : Dict }.

Definition NativeMap_new : NativeMap := {| NativeMap_entries := ∅ |}.

Definition NativeMap_clear (this : NativeMap) : NativeMap := {| NativeMap_entries := ∅ |}.

Definition NativeMap_delete (key : string) (this : NativeMap) : NativeMap :=
  {| NativeMap_entries := delete key (NativeMap_entries this) |}.

Definition NativeMap_get (this : NativeMap) (key : string) : Value :=
  default VUndefined (NativeMap_entries this !! key).

Definition NativeMap_has (this : NativeMap) (key : string) : bool :=
  bool_decide (is_Some (NativeMap_entries this !! key)).

Definition NativeMap_set (key : string) (value : Value) (this : NativeMap) : NativeMap :=
  {| NativeMap_entries := <[key := value]> (NativeMap_entries this) |}.

Definition NativeMap_forEach {S : Type} (f : Value → string → S → S)
    (this : NativeMap) (s : S) : S :=
  foldl (λ s kv, f kv.2 kv.1 s) s (map_to_list (NativeMap_entries this)).

(** ** Iterators

    An iterator is the sequence of the items it has yet to produce;
    [next()] takes the first one, and reports [done] on the empty
    sequence. *)

Definition Iterator (T : Type) := list T.

(** ** The container contracts *)

(** [interface StringMap<T>], with the constructor. *)
Class StringMap (M : Type) := {
  sm_new : M;
  sm_clear : M → M;
  sm_delete : string → M → M;
  sm_get : M → string → Value;
  sm_has : M → string → bool;
  sm_set : string → Value → M → M;
  sm_forEach : ∀ {S : Type}, (Value → string → S → S) → M → S → S
}.

(** [interface FullyFeaturedMap<T> extends StringMap<T>] *)
Class FullyFeaturedMap (M : Type) := {
  sm_keys : M → Iterator string;
  sm_values : M → Iterator Value;
  sm_entries : M → Iterator (string * Value)
}.

#[global] Instance ShimStringMap_StringMap : StringMap ShimStringMap := {|
  sm_new := ShimStringMap_new;
  sm_clear := ShimStringMap_clear;
  sm_delete := ShimStringMap_delete;
  sm_get := ShimStringMap_get;
  sm_has := ShimStringMap_has;
  sm_set := ShimStringMap_set;
  sm_forEach := @ShimStringMap_forEach
|}.

#[global] Instance NativeMap_StringMap : StringMap NativeMap := {|
  sm_new := NativeMap_new;
  sm_clear := NativeMap_clear;
  sm_delete := NativeMap_delete;
  sm_get := NativeMap_get;
  sm_has := NativeMap_has;
  sm_set := NativeMap_set;
  sm_forEach := @NativeMap_forEach
|}.

Definition NativeMap_FullyFeaturedMap : FullyFeaturedMap NativeMap := {|
  sm_keys this := (map_to_list (NativeMap_entries this)).*1;
  sm_values this := (map_to_list (NativeMap_entries this)).*2;
  sm_entries this := map_to_list (NativeMap_entries this)
|}.

(** The entries of a map, in the order in which [forEach] visits them. *)
Definition sm_enumerate {M} `{StringMap M} (m : M) : list (string * Value) :=
  sm_forEach (λ value key acc, acc ++ [(key, value)]) m [].

(** What the generic algorithms rely on: [forEach] runs the action once on
    each entry, the entries are those that [has] and [get] report, [get]
    of a missing key is [undefined], and [set] and [delete] change only
    the key they are given. *)
Class StringMapLaws (M : Type) `{StringMap M} : Prop := {
  sm_forEach_fold : ∀ (S : Type) (f : Value → string → S → S) (m : M) (s : S),
    sm_forEach f m s = foldl (λ s kv, f kv.2 kv.1 s) s (sm_enumerate m);
  sm_enumerate_NoDup : ∀ m : M, NoDup (sm_enumerate m).*1;
  sm_enumerate_spec : ∀ (m : M) k v,
    (k, v) ∈ sm_enumerate m ↔ sm_has m k = true ∧ sm_get m k = v;
  sm_get_absent : ∀ (m : M) k, sm_has m k = false → sm_get m k = VUndefined;
  sm_has_new : ∀ k, sm_has (sm_new : M) k = false;
  sm_has_clear : ∀ (m : M) k, sm_has (sm_clear m) k = false;
  sm_has_set : ∀ (m : M) k v k',
    sm_has (sm_set k v m) k' = if decide (k = k') then true else sm_has m k';
  sm_get_set : ∀ (m : M) k v k',
    sm_get (sm_set k v m) k' = if decide (k = k') then v else sm_get m k';
  sm_has_delete : ∀ (m : M) k k',
    sm_has (sm_delete k m) k' = if decide (k = k') then false else sm_has m k';
  sm_get_delete : ∀ (m : M) k k',
    sm_get (sm_delete k m) k' = if decide (k = k') then VUndefined else sm_get m k'
}.

(** The iterators of a fully featured map walk the entries in the order of
    [forEach]. *)
Class FullyFeaturedMapLaws (M : Type) `{StringMap M} (ff : FullyFeaturedMap M) : Prop := {
  sm_entries_enumerate : ∀ m : M, sm_entries m = sm_enumerate m;
  sm_keys_enumerate : ∀ m : M, sm_keys m = (sm_enumerate m).*1;
  sm_values_enumerate : ∀ m : M, sm_values m = (sm_enumerate m).*2
}.


(** ** Algorithms over the string map contract *)

(** [someInIterator(iter, predicate)]: the loop on [iter.next()]. *)
Fixpoint someInIterator {T : Type} (iter : Iterator T) (predicate : T → bool) : bool :=
  match iter with
  | [] => false
  | value :: iter => if predicate value then true else someInIterator iter predicate
  end.

(** The loop of the iterator branch of [findInMap]. *)
Fixpoint findInMap_loop (iter : Iterator (string * Value)) (f : Value → string → Value) : Value :=
  match iter with
  | [] => VUndefined
  | (key, value) :: iter =>
      let result := f value key in
      if negb (strictEquals result VUndefined) then result else findInMap_loop iter f
  end.

(** The loop of the iterator branch of [_findMapValue]. *)
Fixpoint _findMapValue_loop (iter : Iterator Value) (f : Value → Value) : Value :=
  match iter with
  | [] => VUndefined
  | value :: iter =>
      let result := f value in
      if negb (strictEquals result VUndefined) then result else _findMapValue_loop iter f
  end.

Section MapAlgorithms.
Context {M : Type} `{StringMap M}.

(** The capability probe: the iterator methods of the maps, when they
    have them. *)
Variable fullyFeaturedMaps : option (FullyFeaturedMap M).

Definition setAndReturn (map : M) (key : string) (value : Value) : Value * M :=
  let map := sm_set key value map in
  (value, map).

Definition findInMap (map : M) (f : Value → string → Value) : Value :=
  match fullyFeaturedMaps with
  | Some ff => findInMap_loop (sm_entries map) f
  | None =>
      sm_forEach (λ value key result,
                    if strictEquals result VUndefined then f value key else result)
                 map VUndefined
  end.

Definition someInMap (map : M) (predicate : string → Value → bool) : bool :=
  match fullyFeaturedMaps with
  | Some ff => someInIterator (sm_entries map) (λ '(key, value), predicate key value)
  | None => sm_forEach (λ value key found, found || predicate key value) map false
  end.

Definition someKeyInMap (map : M) (predicate : string → bool) : bool :=
  match fullyFeaturedMaps with
  | Some ff => someInIterator (sm_keys map) predicate
  | None => someInMap map (λ key _, predicate key)
  end.

Definition someValueInMap (map : M) (predicate : Value → bool) : bool :=
  match fullyFeaturedMaps with
  | Some ff => someInIterator (sm_values map) predicate
  | None => someInMap map (λ key value, predicate value)
  end.

Definition _findMapValue (map : M) (f : Value → Value) : Value :=
  match fullyFeaturedMaps with
  | Some ff => _findMapValue_loop (sm_values map) f
  | None =>
      sm_forEach (λ value _ result,
                    if strictEquals result VUndefined then f value else result)
                 map VUndefined
  end.

(** [_equalMaps(left, right, equalityComparer?)], the maps being those
    that the store [σ] holds at the two references. *)
Definition _equalMaps (σ : Store M) (left right : Ref)
    (equalityComparer : option (Value → Value → bool)) : bool :=
  if bool_decide (left = right) then true
  else if Ref_absent left || Ref_absent right then false
  else
    match left, right with
    | RObject l, RObject r =>
        let someInLeftHasNoMatch :=
          someInMap (σ l) (λ leftKey leftValue,
            if negb (sm_has (σ r) leftKey) then true
            else
              let rightValue := sm_get (σ r) leftKey in
              negb (match equalityComparer with
                    | Some equalityComparer => equalityComparer leftValue rightValue
                    | None => strictEquals leftValue rightValue
                    end)) in
        if someInLeftHasNoMatch then false
        else
          let someInRightHasNoMatch :=
            someKeyInMap (σ r) (λ rightKey, negb (sm_has (σ l) rightKey)) in
          negb someInRightHasNoMatch
    | _, _ => false
    end.
End MapAlgorithms.

(** ** Records ([MapLike])

    A plain object handed in from outside: its own enumerable fields, and
    the properties it inherits, each with its enumerable flag.  A read
    looks at the own fields first; [for .. in] visits the own fields, then
    the inherited enumerable ones that no own field shadows. *)

Record MapLike := mkMapLike {
  MapLike_own : Dict;
  MapLike_inherited : gmap string (Value * bool)
}.

(** [object[key]] *)
Definition MapLike_read (object : MapLike) (key : string) : Value :=
  match MapLike_own object !! key with
  | Some value => value
  | None =>
      match MapLike_inherited object !! key with
      | Some (value, _) => value
      | None => VUndefined
      end
  end.

(** [hasOwnProperty.call(object, key)] *)
Definition hasOwnProperty_call (object : MapLike) (key : string) : bool :=
  bool_decide (is_Some (MapLike_own object !! key)).

(** The keys visited by [for (const key in object)]. *)
Definition MapLike_forIn (object : MapLike) : list string :=
  Dict_forIn (MapLike_own object)
  ++ filter (λ key, MapLike_own object !! key = None)
            (map_to_list (filter (λ kv, kv.2.2 = true) (MapLike_inherited object))).*1.

Definition hasProperty (map : MapLike) (key : string) : bool :=
  hasOwnProperty_call map key.

(** The loop of [equalOwnProperties] over the keys of [left]; [Some b]
    when the loop body executes [return b]. *)
Fixpoint equalOwnProperties_left (keys : list string) (left right : MapLike)
    (equalityComparer : option (Value → Value → bool)) : option bool :=
  match keys with
  | [] => None
  | key :: keys =>
      if hasOwnProperty_call left key then
        if strictEquals (VBoolean (negb (hasOwnProperty_call right key))) VUndefined
        then Some false
        else if match equalityComparer with
                | Some equalityComparer =>
                    negb (equalityComparer (MapLike_read left key) (MapLike_read right key))
                | None => negb (strictEquals (MapLike_read left key) (MapLike_read right key))
                end
        then Some false
        else equalOwnProperties_left keys left right equalityComparer
      else equalOwnProperties_left keys left right equalityComparer
  end.

(** The loop of [equalOwnProperties] over the keys of [right]. *)
Fixpoint equalOwnProperties_right (keys : list string) (left right : MapLike) : option bool :=
  match keys with
  | [] => None
  | key :: keys =>
      if hasOwnProperty_call right key then
        if negb (hasOwnProperty_call left key) then Some false
        else equalOwnProperties_right keys left right
      else equalOwnProperties_right keys left right
  end.

Definition equalOwnProperties (σ : Store MapLike) (left right : Ref)
    (equalityComparer : option (Value → Value → bool)) : bool :=
  if bool_decide (left = right) then true
  else if Ref_absent left || Ref_absent right then false
  else
    match left, right with
    | RObject l, RObject r =>
        match equalOwnProperties_left (MapLike_forIn (σ l)) (σ l) (σ r) equalityComparer with
        | Some result => result
        | None =>
            match equalOwnProperties_right (MapLike_forIn (σ r)) (σ l) (σ r) with
            | Some result => result
            | None => true
            end
        end
    | _, _ => false
    end.

Section MapLikeConversions.
Context {M : Type} `{StringMap M}.

Definition mapOfMapLike (object : MapLike) : M :=
  let map := sm_new in
  foldl (λ map key,
           if hasProperty object key then sm_set key (MapLike_read object key) map
           else map)
        map (MapLike_forIn object).

Definition mapLikeOfMap (map : M) : MapLike :=
  let obj := createDictionaryModeObject in
  let obj := sm_forEach (λ value key obj, <[key := value]> obj) map obj in
  {| MapLike_own := obj; MapLike_inherited := ∅ |}.
End MapLikeConversions.

(** ** Arrays

    Arrays are objects: a map that holds an array holds a reference to it,
    and [push] through one reference is seen through all of them.  The
    heap gives the elements of the array at each location, and the next
    location that an array literal will take. *)

Record Heap := mkHeap {
  Heap_arrays : Store (list Value);
  Heap_next : loc
}.

Definition Heap_write (l : loc) (elems : list Value) (h : Heap) : Heap :=
  {| Heap_arrays := λ l', if decide (l' = l) then elems else Heap_arrays h l';
     Heap_next := Heap_next h |}.

(** The array literal [[value]]. *)
Definition Array_literal (elems : list Value) (h : Heap) : Value * Heap :=
  let l := Heap_next h in
  (VObject l,
   {| Heap_arrays := λ l', if decide (l' = l) then elems else Heap_arrays h l';
      Heap_next := S l |}).

(** [array.push(value)]; a value that is no object has no [push]. *)
Definition Array_push (array : Value) (value : Value) (h : Heap) : Result Heap :=
  match array with
  | VObject l => Ok (Heap_write l (Heap_arrays h l ++ [value]) h)
  | _ => Throw TypeError
  end.

(** [array.length]: the number of elements of an array and of
    characters of a string; a boolean and a number have no such property,
    and reading a property of [undefined] or [null] raises an error. *)
Definition Array_length (array : Value) (h : Heap) : Result Value :=
  match array with
  | VObject l => Ok (VNumber (Integer (Z.of_nat (length (Heap_arrays h l)))))
  | VString s => Ok (VNumber (Integer (Z.of_nat (String.length s))))
  | VBoolean _ | VNumber _ => Ok VUndefined
  | VUndefined | VNull => Throw TypeError
  end.

(** The index of the first element that is [===] to [item]. *)
Fixpoint Array_indexOf (elems : list Value) (item : Value) : option nat :=
  match elems with
  | [] => None
  | element :: elems =>
      if strictEquals element item then Some O
      else S <$> Array_indexOf elems item
  end.

(** Modelled from the spec: [unorderedRemoveItem] (core.ts) is not under
    src/.  It removes one occurrence of [item] from the array without
    preserving the order of the remaining elements, and does nothing when
    [item] does not occur: the last element is moved into the place of the
    first occurrence and the array is shortened by one. *)
Definition unorderedRemoveItem_elems (elems : list Value) (item : Value) : list Value :=
  match Array_indexOf elems item with
  | Some index =>
      match last elems with
      | Some lastElement => removelast (<[index := lastElement]> elems)
      | None => elems
      end
  | None => elems
  end.

(** Some character of the string is [===] to [item]. *)
Definition occursInString (s : string) (item : Value) : bool :=
  match item with
  | VString (String c EmptyString) => existsb (Ascii.eqb c) (list_ascii_of_string s)
  | _ => false
  end.

(** [unorderedRemoveItem(array, item)] on the array that [array] refers
    to.  A boolean and a number have no elements, so nothing is found in
    them; a character found in a string cannot be removed from it (a
    string has no [pop]). *)
Definition unorderedRemoveItem (array : Value) (item : Value) (h : Heap) : Result Heap :=
  match array with
  | VObject l => Ok (Heap_write l (unorderedRemoveItem_elems (Heap_arrays h l) item) h)
  | VString s => if occursInString s item then Throw TypeError else Ok h
  | VBoolean _ | VNumber _ => Ok h
  | VUndefined | VNull => Throw TypeError
  end.

(** ** Multimaps *)

Section MultiMap.
Context {M : Type} `{StringMap M}.

(** [multiMapAdd(map, key, value)]: the array returned, and the map and
    the heap after the call. *)
Definition multiMapAdd (map : M) (key : string) (value : Value) (h : Heap)
    : Result (Value * M * Heap) :=
  let values := sm_get map key in
  if truthy values then
    h ← Array_push values value h;
    mret (values, map, h)
  else
    let '(array, h) := Array_literal [value] h in
    let '(result, map) := setAndReturn map key array in
    mret (result, map, h).

(** [multiMapRemove(map, key, value)]: the map and the heap after the
    call. *)
Definition multiMapRemove (map : M) (key : string) (value : Value) (h : Heap)
    : Result (M * Heap) :=
  let values := sm_get map key in
  if truthy values then
    h ← unorderedRemoveItem values value h;
    len ← Array_length values h;
    if negb (truthy len) then mret (sm_delete key map, h)
    else mret (map, h)
  else mret (map, h).
End MultiMap.

(** ** The fallback number map

    [data] is a plain object indexed by number: the key is converted to
    its decimal property name.  No property of a plain object's prototype
    has such a name, so only own properties are involved. *)

Record ShimNumberMap := mkShimNumberMap { ShimNumberMap_data : Dict }.

(** The property name of an integer key. *)
Definition Number_toString (key : Z) : string := pretty key.

Definition ShimNumberMap_new (pairs : option (list (Z * Value))) : ShimNumberMap :=
  let data : Dict := ∅ in
  match pairs with
  | Some pairs =>
      {| ShimNumberMap_data :=
           foldl (λ data '(key, value), <[Number_toString key := value]> data) data pairs |}
  | None => {| ShimNumberMap_data := data |}
  end.

Definition ShimNumberMap_delete (key : Z) (this : ShimNumberMap) : ShimNumberMap :=
  {| ShimNumberMap_data := delete (Number_toString key) (ShimNumberMap_data this) |}.

Definition ShimNumberMap_get (this : ShimNumberMap) (key : Z) : Value :=
  Dict_get (ShimNumberMap_data this) (Number_toString key).

Definition ShimNumberMap_has (this : ShimNumberMap) (key : Z) : bool :=
  Dict_in (Number_toString key) (ShimNumberMap_data this).

Definition ShimNumberMap_set (key : Z) (value : Value) (this : ShimNumberMap) : ShimNumberMap :=
  {| ShimNumberMap_data := <[Number_toString key := value]> (ShimNumberMap_data this) |}.

(** Modelled from the spec: [Debug.assert] (core.ts) is not under src/.
    An assertion on a false expression fails: it raises an error. *)
Definition Debug_assert (expression : bool) : Result unit :=
  if expression then Ok () else Throw AssertionFailure.

(** [forEach(action)]: the loop variable of [for .. in] is the property
    name, a string; it is what the assertion tests and what [action]
    receives as key. *)
Definition ShimNumberMap_forEach {S : Type} (action : Value → Value → S → S)
    (this : ShimNumberMap) (s : S) : Result S :=
  foldl (λ (acc : Result S) (key : string),
           s ← acc;
           _ ← Debug_assert (bool_decide (typeof (VString key) = "number"));
           mret (action (Dict_get (ShimNumberMap_data this) key) (VString key) s))
        (Ok s) (Dict_forIn (ShimNumberMap_data this)).

(** ** The fallback string set, with its size *)

Record ShimSet := mkShimSet {
  ShimSet_data : Dict;
  ShimSet_size : Z
}.

Definition ShimSet_new : ShimSet :=
  {| ShimSet_data := createDictionaryModeObject; ShimSet_size := 0 |}.

Definition ShimSet_has (this : ShimSet) (value : string) : bool :=
  Dict_in value (ShimSet_data this).

Definition ShimSet_add (value : string) (this : ShimSet) : ShimSet :=
  if negb (ShimSet_has this value) then
    {| ShimSet_data := <[value := VBoolean true]> (ShimSet_data this);
       ShimSet_size := ShimSet_size this + 1 |}
  else this.

Definition ShimSet_delete (value : string) (this : ShimSet) : ShimSet :=
  if ShimSet_has this value then
    {| ShimSet_data := delete value (ShimSet_data this);
       ShimSet_size := ShimSet_size this - 1 |}
  else this.

Definition ShimSet_forEach {S : Type} (f : string → S → S) (this : ShimSet) (s : S) : S :=
  foldl (λ s value, f value s) s (Dict_forIn (ShimSet_data this)).

Definition _setIsEmpty (set : ShimSet) : bool := ShimSet_size set =? 0.

(** The members of the set, as [forEach] visits them. *)
Definition ShimSet_members (this : ShimSet) : list string :=
  ShimSet_forEach (λ value acc, acc ++ [value]) this [].

(** ** Sorting in the insertion order of V8 objects *)

(** A decimal digit. *)
Definition isDigit (c : ascii) : bool := (("0" <=? c) && (c <=? "9"))%char.

(** A digit from 1 to 9. *)
Definition isNonZeroDigit (c : ascii) : bool := (("1" <=? c) && (c <=? "9"))%char.

(** Digits up to the end of the string. *)
Fixpoint allDigits (s : string) : bool :=
  match s with
  | EmptyString => true
  | String c s => isDigit c && allDigits s
  end.

(** The test of the regular expression for naturals: the whole string is
    either [0], or a digit from 1 to 9 followed by any number of digits. *)
Definition looksLikeNatural (s : string) : bool :=
  match s with
  | EmptyString => false
  | String c rest =>
      if bool_decide (c = "0"%char) then bool_decide (rest = EmptyString)
      else isNonZeroDigit c && allDigits rest
  end.

Definition digitValue (c : ascii) : Z := Z.of_N (N_of_ascii c) - 48.

Definition isWhiteSpace (c : ascii) : bool :=
  let n := N_of_ascii c in
  ((9 <=? n) && (n <=? 13) || (n =? 32))%N.

Fixpoint trimStart (s : string) : string :=
  match s with
  | String c rest => if isWhiteSpace c then trimStart rest else s
  | EmptyString => s
  end.

(** The value of the longest prefix of decimal digits, [None] when the
    prefix is empty. *)
Fixpoint parseDigits (s : string) (acc : option Z) : option Z :=
  match s with
  | String c rest =>
      if isDigit c then parseDigits rest (Some (10 * default 0 acc + digitValue c))
      else acc
  | EmptyString => acc
  end.

(** The doubles of the arithmetic of the sort: [NaN], the two infinities,
    and the finite doubles that hold an integer, given by that integer
    (the two zeros behave alike under [-] and [> 0]). *)
Inductive Double :=
  | DoubleNaN
  | DoubleInfinity (negative : bool)
  | DoubleFinite (z : Z).

(** The least power of two that is beyond the finite doubles. *)
Definition Double_overflow : Z := 2 ^ 1024.

(** The integer nearest to [n >= 0] that has at most 53 significant bits,
    the one with an even 53rd bit of two that are equally near. *)
Definition roundToNearestEven (n : Z) : Z :=
  if n <? 2 ^ 53 then n
  else
    let e := Z.log2 n - 52 in
    let q := Z.shiftr n e in
    let r := Z.land n (Z.ones e) in
    let half := Z.shiftl 1 (e - 1) in
    let q := if (half <? r) || ((r =? half) && Z.odd q) then q + 1 else q in
    Z.shiftl q e.

(** The double nearest to the integer [n]; an infinity when the nearest
    value with 53 significant bits is beyond the finite doubles. *)
Definition roundToDouble (n : Z) : Double :=
  let m := roundToNearestEven (Z.abs n) in
  if Double_overflow <=? m then DoubleInfinity (n <? 0)
  else DoubleFinite (Z.sgn n * m).
Arguments roundToDouble : simpl never.

(** [parseInt(s, 10)]: leading white space, an optional sign, then the
    longest prefix of digits, of which V8 gives the nearest double; [NaN]
    when there is no digit. *)
Definition parseInt10 (s : string) : Double :=
  let s := trimStart s in
  let '(sign, s) :=
    match s with
    | String "-" rest => (-1, rest)
    | String "+" rest => (1, rest)
    | _ => (1, s)
    end in
  match parseDigits s None with
  | Some n => roundToDouble (sign * n)
  | None => DoubleNaN
  end.

(** [a - b] on doubles: the double nearest to the difference; an infinity
    less itself is [NaN]. *)
Definition Double_sub (a b : Double) : Double :=
  match a, b with
  | DoubleFinite x, DoubleFinite y => roundToDouble (x - y)
  | DoubleFinite _, DoubleInfinity negative => DoubleInfinity (negb negative)
  | DoubleInfinity negative, DoubleFinite _ => DoubleInfinity negative
  | DoubleInfinity negative, DoubleInfinity negative' =>
      if bool_decide (negative = negative') then DoubleNaN else DoubleInfinity negative
  | _, _ => DoubleNaN
  end.

(** [v > 0], the test by which [sort] puts its first argument after the
    second; [NaN] counts as zero. *)
Definition Double_positive (v : Double) : bool :=
  match v with
  | DoubleFinite z => 0 <? z
  | DoubleInfinity negative => negb negative
  | DoubleNaN => false
  end.

(** [Array.prototype.sort(compareFn)] is the host's: a stable sort by
    insertion, an element going before the first one that [compareFn]
    puts after it. *)
Fixpoint Array_sort_insert {T : Type} (compareFn : T → T → Double) (x : T) (sorted : list T) : list T :=
  match sorted with
  | [] => [x]
  | y :: sorted' =>
      if Double_positive (compareFn x y) then y :: Array_sort_insert compareFn x sorted'
      else x :: sorted
  end.

Fixpoint Array_sort {T : Type} (compareFn : T → T → Double) (array : list T) : list T :=
  match array with
  | [] => []
  | x :: array => Array_sort_insert compareFn x (Array_sort compareFn array)
  end.

Definition sortInV8ObjectInsertionOrder {T : Type} (values : list T) (toKey : T → string) : list T :=
  let '(naturals, everythingElse) :=
    foldl (λ '(naturals, everythingElse) value,
             let looksLikeNatural := looksLikeNatural (toKey value) in
             if looksLikeNatural then (naturals ++ [value], everythingElse)
             else (naturals, everythingElse ++ [value]))
          ([], []) values in
  let toInt (value : T) : Double := parseInt10 (toKey value) in
  let naturals := Array_sort (λ a b, Double_sub (toInt a) (toInt b)) naturals in
  naturals ++ everythingElse.

(** ** Sample data *)

Definition exampleNativeMap : NativeMap :=
  NativeMap_set "b" (VNumber (Integer 2)) (NativeMap_set "a" (VNumber (Integer 1)) NativeMap_new).

Definition exampleShimMap : ShimStringMap :=
  ShimStringMap_set "b" (VNumber (Integer 2))
    (ShimStringMap_set "a" (VNumber (Integer 1)) ShimStringMap_new).

(** Two distinct maps with the same entries, at locations 0 and 1. *)
Definition exampleMapStore : Store ShimStringMap :=
  λ l, match l with
       | O => exampleShimMap
       | _ => ShimStringMap_set "a" (VNumber (Integer 1))
                (ShimStringMap_set "b" (VNumber (Integer 2)) ShimStringMap_new)
       end.

(** The prototype of object literals, as far as it matters here: inherited
    methods, none of them enumerable. *)
Definition Object_prototype : gmap string (Value * bool) :=
  <["toString" := (VObject 100%nat, false)]>
    (<["hasOwnProperty" := (VObject 101%nat, false)]>
       (<["constructor" := (VObject 102%nat, false)]> ∅)).

(** The records [{ a: undefined }] at location 0 and [{}] elsewhere. *)
Definition exampleRecordStore : Store MapLike :=
  λ l, match l with
       | O => {| MapLike_own := <["a" := VUndefined]> ∅; MapLike_inherited := Object_prototype |}
       | _ => {| MapLike_own := ∅; MapLike_inherited := Object_prototype |}
       end.

(** The set invariant: [size] is the number of members. *)
Definition ShimSet_inv (this : ShimSet) : Prop :=
  ShimSet_size this = Z.of_nat (length (ShimSet_members this)).

Definition exampleShimSet : ShimSet := ShimSet_add "x" (ShimSet_add "y" ShimSet_new).





(** The map [{ a: NaN }] at location 0, and elsewhere the map made from
    the record made from it. *)
Definition exampleNaNStore : Store ShimStringMap :=
  let map := ShimStringMap_set "a" (VNumber NaN) ShimStringMap_new in
  λ l, match l with
       | O => map
       | _ => mapOfMapLike (mapLikeOfMap map)
       end.

(** A map at location 0, and elsewhere the map made from the record made
    from it. *)
Definition exampleRoundTripStore : Store ShimStringMap :=
  λ l, match l with
       | O => exampleShimMap
       | _ => mapOfMapLike (mapLikeOfMap exampleShimMap)
       end.

(** Some element of the array is [===] to [item]. *)
Definition occursIn (elems : list Value) (item : Value) : bool :=
  existsb (λ element, strictEquals element item) elems.

(** A map typed [StringMap<V[]>]: the keys it has hold arrays. *)
Definition MultiMap_typed {M : Type} `{StringMap M} (map : M) : Prop :=
  ∀ key, sm_has map key = true → ∃ l, sm_get map key = VObject l.

(** A heap where location 0 holds the array [[1, 2]] and location 1 the
    empty array. *)
Definition exampleHeap : Heap :=
  {| Heap_arrays := λ l, match l with
                         | O => [VNumber (Integer 1); VNumber (Integer 2)]
                         | _ => []
                         end;
     Heap_next := 2%nat |}.

(** The multimap with the array at location 0 under [a] and the array at
    location 1 under [b]. *)
Definition exampleMultiMap : ShimStringMap :=
  ShimStringMap_set "b" (VObject 1%nat) (ShimStringMap_set "a" (VObject 0%nat) ShimStringMap_new).

(** ** Further algorithms over the string map contract *)

(** The loop of the iterator branch of [forEachKeyInMap]; the action works
    on the state [s] of the variables it captures. *)
Fixpoint forEachKeyInMap_loop {S : Type} (iter : Iterator string) (f : string → S → S) (s : S) : S :=
  match iter with
  | [] => s
  | key :: iter => forEachKeyInMap_loop iter f (f key s)
  end.

(** [someInIterator] with a predicate that has effects on a state. *)
Fixpoint someInIterator_effect {T S : Type} (iter : Iterator T)
    (predicate : T → S → bool * S) (s : S) : bool * S :=
  match iter with
  | [] => (false, s)
  | value :: iter =>
      let '(result, s) := predicate value s in
      if result then (true, s) else someInIterator_effect iter predicate s
  end.

(** The loop of the iterator branch of [_eachAndBreakIfReturningTrue] in
    the module's other revision: the result of [f] is dropped. *)
Fixpoint _eachAndBreakIfReturningTrue_earlier_loop {S : Type} (iter : Iterator (string * Value))
    (f : string → Value → S → bool * S) (s : S) : S :=
  match iter with
  | [] => s
  | (key, value) :: iter => _eachAndBreakIfReturningTrue_earlier_loop iter f (f key value s).2
  end.

(** [String(key)] of a string. *)
Definition String_of (key : string) : string := key.

Section FurtherMapAlgorithms.
Context {M : Type} `{StringMap M}.
Variable fullyFeaturedMaps : option (FullyFeaturedMap M).

Definition createMapWithEntry (key : string) (value : Value) : M :=
  let map := sm_new in
  let map := sm_set key value map in
  map.

(** [_eachAndBreakIfReturningTrue], which is [someInMap] called for the
    effects of [action]: the state of the captured variables after the
    call. *)
Definition _eachAndBreakIfReturningTrue {S : Type} (map : M)
    (action : string → Value → S → bool * S) (s : S) : S :=
  match fullyFeaturedMaps with
  | Some ff =>
      (someInIterator_effect (sm_entries map) (λ '(key, value), action key value) s).2
  | None =>
      (sm_forEach (λ value key (state : bool * S),
                     let '(found, s) := state in
                     if found then (found, s) else action key value s)
                  map (false, s)).2
  end.

(** [_eachAndBreakIfReturningTrue] of the module's other revision. *)
Definition _eachAndBreakIfReturningTrue_earlier {S : Type} (map : M)
    (f : string → Value → S → bool * S) (s : S) : S :=
  match fullyFeaturedMaps with
  | Some ff => _eachAndBreakIfReturningTrue_earlier_loop (sm_entries map) f s
  | None =>
      (sm_forEach (λ value key (state : bool * S),
                     let '(didBreak, s) := state in
                     if didBreak then (didBreak, s) else f key value s)
                  map (false, s)).2
  end.

Definition forEachKeyInMap {S : Type} (map : M) (action : string → S → S) (s : S) : S :=
  match fullyFeaturedMaps with
  | Some ff => forEachKeyInMap_loop (sm_keys map) action s
  | None => sm_forEach (λ _value key s, action key s) map s
  end.

Definition mapIsEmpty (map : M) : bool :=
  negb (someKeyInMap fullyFeaturedMaps map (λ _, true)).

Definition _mod (map : M) (key : string) (modifier : Value → Value) : M :=
  sm_set key (modifier (sm_get map key)) map.

Definition copyMapPropertiesFromTo (source target : M) : M :=
  sm_forEach (λ value key target, sm_set key value target) source target.

Definition cloneMap (map : M) : M :=
  let clone := sm_new in
  copyMapPropertiesFromTo map clone.

Definition reduceProperties {U : Type} (map : M) (callback : U → Value → string → U)
    (initial : U) : U :=
  let result := initial in
  sm_forEach (λ value key result, callback result value (String_of key)) map result.

(** [_mapValuesMutate]: the action assigns, in the map that [forEach]
    walks, the key that is being visited; the keys stay as they are. *)
Definition _mapValuesMutate (map : M) (mapValue : Value → Value) : M :=
  sm_forEach (λ value key map, sm_set key (mapValue value) map) map map.

Definition _ownKeys (map : M) : list string :=
  let keys := [] in
  forEachKeyInMap map (λ key keys, keys ++ [key]) keys.

(** [_getOrUpdate(map, key, getValue)], where [getValue] may have effects
    on a state: the value returned, the map and the state after the call. *)
Definition _getOrUpdate {S : Type} (map : M) (key : string)
    (getValue : string → S → Value * S) (s : S) : Value * M * S :=
  if sm_has map key then (sm_get map key, map, s)
  else
    let '(value, s) := getValue key s in
    let '(value, map) := setAndReturn map key value in
    (value, map, s).

Definition arrayToMap (array : list Value) (makeKey : Value → string)
    (makeValue : option (Value → Value)) : M :=
  let result := sm_new in
  foldl (λ result value,
           sm_set (makeKey value)
                  (match makeValue with
                   | Some makeValue => makeValue value
                   | None => value
                   end)
                  result)
        result array.
End FurtherMapAlgorithms.

(** ** The fallback string set without a size *)

Record ShimStringSet := mkShimStringSet { ShimStringSet_data : Dict }.

Definition ShimStringSet_new : ShimStringSet :=
  {| ShimStringSet_data := createDictionaryModeObject |}.

Definition ShimStringSet_add (value : string) (this : ShimStringSet) : ShimStringSet :=
  {| ShimStringSet_data := <[value := VBoolean true]> (ShimStringSet_data this) |}.

Definition ShimStringSet_has (this : ShimStringSet) (value : string) : bool :=
  Dict_in value (ShimStringSet_data this).

Definition ShimStringSet_delete (value : string) (this : ShimStringSet) : ShimStringSet :=
  {| ShimStringSet_data := delete value (ShimStringSet_data this) |}.

Definition ShimStringSet_forEach {S : Type} (action : string → S → S)
    (this : ShimStringSet) (s : S) : S :=
  foldl (λ s value, action value s) s (Dict_forIn (ShimStringSet_data this)).

(** [isEmpty()]: the loop returns false at the first key. *)
Definition ShimStringSet_isEmpty (this : ShimStringSet) : bool :=
  match Dict_forIn (ShimStringSet_data this) with
  | value :: _ => false
  | [] => true
  end.

(** [setIsEmpty] without native sets. *)
Definition setIsEmpty (set : ShimStringSet) : bool := ShimStringSet_isEmpty set.

(** [copySetValuesFromTo] on the set without a size. *)
Definition copySetValuesFromTo (source target : ShimStringSet) : ShimStringSet :=
  ShimStringSet_forEach (λ value target, ShimStringSet_add value target) source target.

(** [copySetValuesFromTo] on the set with a size. *)
Definition copySetValuesFromTo_sized (source target : ShimSet) : ShimSet :=
  ShimSet_forEach (λ value target, ShimSet_add value target) source target.

(** ** Further record utilities *)

Definition getProperty (map : MapLike) (key : string) : Value :=
  if hasOwnProperty_call map key then MapLike_read map key else VUndefined.

Definition getOwnKeys (map : MapLike) : list string :=
  let keys := [] in
  foldl (λ keys key, if hasOwnProperty_call map key then keys ++ [key] else keys)
        keys (MapLike_forIn map).

Definition reduceOwnProperties {U : Type} (map : MapLike) (callback : U → Value → string → U)
    (initial : U) : U :=
  let result := initial in
  foldl (λ result key,
           if hasOwnProperty_call map key
           then callback result (MapLike_read map key) (String_of key)
           else result)
        result (MapLike_forIn map).

(** The object literal [{}]. *)
Definition emptyObjectLiteral : MapLike :=
  {| MapLike_own := ∅; MapLike_inherited := Object_prototype |}.

(** [result[id] = value] on an object made by an object literal: the own
    field is created or overwritten.  The one name that the prototype of
    object literals handles by an accessor is [__proto__]; assigning it is
    not modelled, and gives [None]. *)
Definition ObjectLiteral_write (id : string) (value : Value) (result : MapLike) : option MapLike :=
  if bool_decide (id = "__proto__") then None
  else Some {| MapLike_own := <[id := value]> (MapLike_own result);
               MapLike_inherited := MapLike_inherited result |}.

(** The loop [for (const id in object) if (hasOwnProperty.call(object, id))
    result[id] = object[id]] of [clone] and [extend]. *)
Definition copyOwnProperties (object : MapLike) (result : option MapLike) : option MapLike :=
  foldl (λ result id,
           if hasOwnProperty_call object id
           then result ≫= ObjectLiteral_write id (MapLike_read object id)
           else result)
        result (MapLike_forIn object).

Definition clone (object : MapLike) : option MapLike :=
  let result := Some emptyObjectLiteral in
  copyOwnProperties object result.

Definition extend (first second : MapLike) : option MapLike :=
  let result := Some emptyObjectLiteral in
  let result := copyOwnProperties second result in
  let result := copyOwnProperties first result in
  result.

(** ** Sets reached from a new one *)

Inductive ShimSet_reachable : ShimSet → Prop :=
  | ShimSet_reachable_new : ShimSet_reachable ShimSet_new
  | ShimSet_reachable_add value this :
      ShimSet_reachable this → ShimSet_reachable (ShimSet_add value this)
  | ShimSet_reachable_delete value this :
      ShimSet_reachable this → ShimSet_reachable (ShimSet_delete value this).

(** The prefix of the entries up to and including the first one on which
    [action] returns true, run from the state [s]: the state after it. *)
Fixpoint runUntilTrue {S : Type} (entries : list (string * Value))
    (action : string → Value → S → bool * S) (s : S) : S :=
  match entries with
  | [] => s
  | (key, value) :: entries =>
      let '(result, s) := action key value s in
      if result then s else runUntilTrue entries action s
  end.

(** ** Further sample data *)

(** A map at location 0, and elsewhere its clone. *)
Definition exampleCloneStore : Store ShimStringMap :=
  λ l, match l with
       | O => exampleShimMap
       | _ => cloneMap exampleShimMap
       end.

(** An action that logs the key it is given and always returns true. *)
Definition logKeyAndBreak (key : string) (value : Value) (log : list string) : bool * list string :=
  (true, log ++ [key]).

(** A [getValue] that counts its calls. *)
Definition countingGetValue (key : string) (calls : nat) : Value * nat :=
  (VNumber (Integer 42), S calls).

(** A record with the own field [a] that inherits an enumerable field
    [b]. *)
Definition exampleInheritingRecord : MapLike :=
  {| MapLike_own := <["a" := VNumber (Integer 1)]> ∅;
     MapLike_inherited := <["b" := (VNumber (Integer 2), true)]> Object_prototype |}.

(** Two distinct dictionary records with the same field. *)
Definition exampleDictionaryStore : Store MapLike :=
  λ l, {| MapLike_own := <["a" := VNumber (Integer 1)]> ∅; MapLike_inherited := ∅ |}.
(** * Properties *)

(** ** Dictionary objects *)

Section DictFacts.
Implicit Types (obj : Dict) (key : string) (value : Value).

Lemma createDictionaryModeObject_empty : createDictionaryModeObject = ∅.
Proof.
  unfold createDictionaryModeObject, createObject_null.
  apply delete_insert_id, lookup_empty.
Qed.

Lemma Dict_in_true obj key : Dict_in key obj = true ↔ is_Some (obj !! key).
Proof. unfold Dict_in. apply bool_decide_eq_true. Qed.

Lemma Dict_in_false obj key : Dict_in key obj = false ↔ obj !! key = None.
Proof.
  unfold Dict_in. rewrite bool_decide_eq_false, eq_None_not_Some. done.
Qed.

Lemma Dict_in_empty key : Dict_in key ∅ = false.
Proof. apply Dict_in_false, lookup_empty. Qed.

Lemma Dict_in_insert obj key value key' :
  Dict_in key' (<[key := value]> obj) = if decide (key = key') then true else Dict_in key' obj.
Proof.
  unfold Dict_in. rewrite lookup_insert.
  destruct (decide (key = key')); [|done].
  apply bool_decide_eq_true. eauto.
Qed.

Lemma Dict_get_insert obj key value key' :
  Dict_get (<[key := value]> obj) key' = if decide (key = key') then value else Dict_get obj key'.
Proof.
  unfold Dict_get. rewrite lookup_insert. by destruct (decide (key = key')).
Qed.

Lemma Dict_in_delete obj key key' :
  Dict_in key' (delete key obj) = if decide (key = key') then false else Dict_in key' obj.
Proof.
  unfold Dict_in. rewrite lookup_delete.
  destruct (decide (key = key')); [|done].
  apply bool_decide_eq_false. by intros [? ?].
Qed.

Lemma Dict_get_delete obj key key' :
  Dict_get (delete key obj) key' = if decide (key = key') then VUndefined else Dict_get obj key'.
Proof.
  unfold Dict_get. rewrite lookup_delete. by destruct (decide (key = key')).
Qed.

Lemma Dict_get_absent obj key : Dict_in key obj = false → Dict_get obj key = VUndefined.
Proof. intros Hin%Dict_in_false. unfold Dict_get. by rewrite Hin. Qed.

(** A [for .. in] loop that reads [obj[key]] at each key is a fold over
    the entries. *)
Lemma foldl_forIn {S : Type} obj (g : string → Value → S → S) (l : list (string * Value)) (s : S) :
  (∀ k v, (k, v) ∈ l → obj !! k = Some v) →
  foldl (λ s key, g key (Dict_get obj key) s) s l.*1 = foldl (λ s kv, g kv.1 kv.2 s) s l.
Proof.
  revert s. induction l as [|[k v] l IH]; intros s Hl; [done|].
  cbn. rewrite <- IH.
  - unfold Dict_get at 2. rewrite (Hl k v); [done|]. apply list_elem_of_here.
  - intros k' v' Hin. apply Hl. by apply list_elem_of_further.
Qed.

Lemma foldl_collect_entries (l acc : list (string * Value)) :
  foldl (λ acc kv, acc ++ [(kv.1, kv.2)]) acc l = acc ++ l.
Proof.
  revert acc. induction l as [|[k v] l IH]; intros acc; cbn.
  - by rewrite app_nil_r.
  - rewrite IH, <- app_assoc. done.
Qed.

Lemma Dict_entry_spec obj key value :
  (key, value) ∈ map_to_list obj ↔ Dict_in key obj = true ∧ Dict_get obj key = value.
Proof.
  rewrite elem_of_map_to_list, Dict_in_true. unfold Dict_get. split.
  - intros Hk. rewrite Hk. eauto.
  - intros [[v Hv] Hget]. rewrite Hv in Hget. cbn in Hget. by subst.
Qed.
End DictFacts.

(** ** The two backings satisfy the contract *)

Lemma ShimStringMap_forEach_fold {S : Type} (f : Value → string → S → S) this (s : S) :
  ShimStringMap_forEach f this s
  = foldl (λ s kv, f kv.2 kv.1 s) s (map_to_list (ShimStringMap_data this)).
Proof.
  unfold ShimStringMap_forEach, Dict_forIn.
  apply (foldl_forIn _ (λ key value, f value key)).
  intros k v. apply elem_of_map_to_list.
Qed.

Lemma ShimStringMap_enumerate (this : ShimStringMap) :
  sm_enumerate this = map_to_list (ShimStringMap_data this).
Proof.
  unfold sm_enumerate. cbn. rewrite ShimStringMap_forEach_fold.
  apply (foldl_collect_entries _ []).
Qed.

Lemma NativeMap_enumerate (this : NativeMap) :
  sm_enumerate this = map_to_list (NativeMap_entries this).
Proof.
  unfold sm_enumerate. cbn. unfold NativeMap_forEach.
  apply (foldl_collect_entries _ []).
Qed.

#[global] Instance ShimStringMap_laws : StringMapLaws ShimStringMap.
Proof.
  split.
  - intros S f m s. rewrite ShimStringMap_enumerate. apply ShimStringMap_forEach_fold.
  - intros m. rewrite ShimStringMap_enumerate. apply NoDup_fst_map_to_list.
  - intros m k v. rewrite ShimStringMap_enumerate. apply Dict_entry_spec.
  - intros m k. exact (Dict_get_absent _ k).
  - intros k. cbn. unfold ShimStringMap_has. cbn.
    rewrite createDictionaryModeObject_empty. apply Dict_in_empty.
  - intros m k. cbn. unfold ShimStringMap_has. cbn.
    rewrite createDictionaryModeObject_empty. apply Dict_in_empty.
  - intros m k v k'. exact (Dict_in_insert _ k v k').
  - intros m k v k'. exact (Dict_get_insert _ k v k').
  - intros m k k'. exact (Dict_in_delete _ k k').
  - intros m k k'. exact (Dict_get_delete _ k k').
Qed.

#[global] Instance NativeMap_laws : StringMapLaws NativeMap.
Proof.
  split.
  - intros S f m s. by rewrite NativeMap_enumerate.
  - intros m. rewrite NativeMap_enumerate. apply NoDup_fst_map_to_list.
  - intros m k v. rewrite NativeMap_enumerate. apply Dict_entry_spec.
  - intros m k. exact (Dict_get_absent _ k).
  - intros k. exact (Dict_in_empty k).
  - intros m k. exact (Dict_in_empty k).
  - intros m k v k'. exact (Dict_in_insert _ k v k').
  - intros m k v k'. exact (Dict_get_insert _ k v k').
  - intros m k k'. exact (Dict_in_delete _ k k').
  - intros m k k'. exact (Dict_get_delete _ k k').
Qed.

#[global] Instance NativeMap_FullyFeaturedMap_laws :
  FullyFeaturedMapLaws NativeMap NativeMap_FullyFeaturedMap.
Proof. split; intros m; by rewrite NativeMap_enumerate. Qed.

(** C1. On either backing of the string map: right after [set(k, v)],
    [has(k)] is true and [get(k)] is [v]; right after [delete(k)], [has(k)]
    is false and [get(k)] is [undefined]. *)
Theorem C1_set_has_get_delete :
  (∀ (m : ShimStringMap) (k : string) (v : Value),
     ShimStringMap_has (ShimStringMap_set k v m) k = true
     ∧ ShimStringMap_get (ShimStringMap_set k v m) k = v
     ∧ ShimStringMap_has (ShimStringMap_delete k m) k = false
     ∧ ShimStringMap_get (ShimStringMap_delete k m) k = VUndefined)
  ∧ (∀ (m : NativeMap) (k : string) (v : Value),
     NativeMap_has (NativeMap_set k v m) k = true
     ∧ NativeMap_get (NativeMap_set k v m) k = v
     ∧ NativeMap_has (NativeMap_delete k m) k = false
     ∧ NativeMap_get (NativeMap_delete k m) k = VUndefined).
Proof.
  split; intros m k v.
  - unfold ShimStringMap_has, ShimStringMap_get, ShimStringMap_set, ShimStringMap_delete; cbn.
    rewrite Dict_in_insert, Dict_get_insert, Dict_in_delete, Dict_get_delete.
    destruct (decide (k = k)); done.
  - unfold NativeMap_has, NativeMap_get, NativeMap_set, NativeMap_delete; cbn.
    pose proof (Dict_in_insert (NativeMap_entries m) k v k) as Hi.
    pose proof (Dict_get_insert (NativeMap_entries m) k v k) as Hg.
    pose proof (Dict_in_delete (NativeMap_entries m) k k) as Hd.
    pose proof (Dict_get_delete (NativeMap_entries m) k k) as He.
    destruct (decide (k = k)); done.
Qed.

(** C9. In the fallback map an entry that holds [undefined] cannot be told
    from a missing one through [get]: after [set(k, undefined)], [has(k)]
    is true and [get(k)] is [undefined], which is also what [get(k)]
    returns on a map where [k] was never set (a new one, or any map that
    does not have [k]). *)
Theorem C9_undefined_entry_reads_as_absent :
  ∀ (m : ShimStringMap) (k : string),
    ShimStringMap_has (ShimStringMap_set k VUndefined m) k = true
    ∧ ShimStringMap_get (ShimStringMap_set k VUndefined m) k = VUndefined
    ∧ ShimStringMap_has ShimStringMap_new k = false
    ∧ ShimStringMap_get ShimStringMap_new k
      = ShimStringMap_get (ShimStringMap_set k VUndefined m) k
    ∧ ∀ m' : ShimStringMap, ShimStringMap_has m' k = false →
        ShimStringMap_get m' k = ShimStringMap_get (ShimStringMap_set k VUndefined m) k.
Proof.
  intros m k.
  assert (Hget : ShimStringMap_get (ShimStringMap_set k VUndefined m) k = VUndefined).
  { unfold ShimStringMap_get, ShimStringMap_set; cbn.
    rewrite Dict_get_insert. destruct (decide (k = k)); done. }
  rewrite Hget. split; [|split; [done|split; [|split]]].
  - unfold ShimStringMap_has, ShimStringMap_set; cbn.
    rewrite Dict_in_insert. destruct (decide (k = k)); done.
  - exact (sm_has_new (M := ShimStringMap) k).
  - exact (sm_get_absent (M := ShimStringMap) _ k (sm_has_new (M := ShimStringMap) k)).
  - intros m'. exact (sm_get_absent (M := ShimStringMap) m' k).
Qed.

Lemma C9_undefined_entry_reads_as_absent_witness :
  ShimStringMap_has exampleShimMap "c" = false
  ∧ ShimStringMap_get exampleShimMap "c"
    = ShimStringMap_get (ShimStringMap_set "c" VUndefined ShimStringMap_new) "c".
Proof.
  split.
  - vm_compute. reflexivity.
  - apply (C9_undefined_entry_reads_as_absent ShimStringMap_new "c").
    vm_compute. reflexivity.
Defined.

(** ** The two strategies of the search algorithms *)

Lemma strictEquals_undefined (x : Value) : strictEquals x VUndefined = true ↔ x = VUndefined.
Proof.
  destruct x as [| |b|[|z]|s|l]; cbn; try rewrite bool_decide_eq_true; done.
Qed.

Lemma strictEquals_sym (x y : Value) : strictEquals x y = strictEquals y x.
Proof.
  unfold strictEquals.
  destruct x as [| |b|[|z]|s|l], y as [| |b'|[|z']|s'|l']; try done;
    apply bool_decide_ext; split; congruence.
Qed.

Lemma strictEquals_true (x y : Value) : strictEquals x y = true → x = y.
Proof.
  unfold strictEquals.
  destruct x as [| |b|[|z]|s|l], y as [| |b'|[|z']|s'|l']; try done;
    apply bool_decide_eq_true.
Qed.

Lemma strictEquals_refl (x : Value) : x ≠ VNumber NaN → strictEquals x x = true.
Proof.
  intros Hx. unfold strictEquals.
  destruct x as [| |b|[|z]|s|l]; try done; by apply bool_decide_eq_true.
Qed.

Lemma someInIterator_exists {T : Type} (iter : Iterator T) (predicate : T → bool) :
  someInIterator iter predicate = true ↔ ∃ x, x ∈ iter ∧ predicate x = true.
Proof.
  induction iter as [|x iter IH]; cbn.
  - split; [done|]. intros (x & Hx & _). by apply elem_of_nil in Hx.
  - destruct (predicate x) eqn:Hp.
    + split; [|done]. intros _. exists x. split; [apply list_elem_of_here|done].
    + rewrite IH. split.
      * intros (y & Hy & Hpy). exists y. split; [by apply list_elem_of_further|done].
      * intros (y & [->|Hy]%elem_of_cons & Hpy); [congruence|eauto].
Qed.

Lemma someInIterator_ext {T : Type} (iter : Iterator T) (p q : T → bool) :
  (∀ x, p x = q x) → someInIterator iter p = someInIterator iter q.
Proof.
  intros Hpq. induction iter as [|x iter IH]; cbn; [done|]. by rewrite Hpq, IH.
Qed.

Lemma someInIterator_fmap {A B : Type} (g : A → B) (iter : Iterator A) (predicate : B → bool) :
  someInIterator (g <$> iter) predicate = someInIterator iter (λ x, predicate (g x)).
Proof.
  induction iter as [|x iter IH]; cbn; [done|]. by rewrite IH.
Qed.

(** The [forEach] loop that keeps [found] once it is true computes the
    disjunction that the iterator loop stops at. *)
Lemma foldl_found {T : Type} (iter : list T) (predicate : T → bool) (found : bool) :
  foldl (λ found x, found || predicate x) found iter
  = found || someInIterator iter predicate.
Proof.
  revert found. induction iter as [|x iter IH]; intros found; cbn.
  - by rewrite orb_false_r.
  - rewrite IH. destruct found, (predicate x); done.
Qed.

(** The [forEach] loop that keeps [result] once it is defined computes the
    result at which the iterator loop returns. *)
Lemma foldl_result (iter : list (string * Value)) (f : Value → string → Value) (result : Value) :
  foldl (λ result kv, if strictEquals result VUndefined then f kv.2 kv.1 else result) result iter
  = if strictEquals result VUndefined then findInMap_loop iter f else result.
Proof.
  revert result. induction iter as [|[key value] iter IH]; intros result; cbn.
  - destruct (strictEquals result VUndefined) eqn:Hr; [|done].
    by apply strictEquals_undefined in Hr.
  - rewrite IH. destruct (strictEquals result VUndefined) eqn:Hr; cbn.
    + by destruct (strictEquals (f value key) VUndefined).
    + by rewrite Hr.
Qed.

Lemma _findMapValue_loop_entries (iter : list (string * Value)) (f : Value → Value) :
  _findMapValue_loop iter.*2 f = findInMap_loop iter (λ value _, f value).
Proof.
  induction iter as [|[key value] iter IH]; cbn; [done|]. by rewrite IH.
Qed.

Section Strategies.
Context {M : Type} `{StringMapLaws M}.
Context (ff : FullyFeaturedMap M) `{!FullyFeaturedMapLaws M ff}.

Lemma findInMap_strategies (map : M) f :
  findInMap (Some ff) map f = findInMap None map f.
Proof.
  unfold findInMap. rewrite sm_forEach_fold, sm_entries_enumerate.
  by rewrite foldl_result.
Qed.

Lemma someInMap_strategies (map : M) predicate :
  someInMap (Some ff) map predicate = someInMap None map predicate.
Proof.
  unfold someInMap. rewrite sm_forEach_fold, sm_entries_enumerate.
  rewrite (foldl_found _ (λ kv, predicate kv.1 kv.2)). cbn.
  apply someInIterator_ext. by intros [key value].
Qed.

Lemma someKeyInMap_strategies (map : M) predicate :
  someKeyInMap (Some ff) map predicate = someKeyInMap None map predicate.
Proof.
  unfold someKeyInMap, someInMap. rewrite sm_forEach_fold, sm_keys_enumerate.
  rewrite (foldl_found _ (λ kv, predicate kv.1)). cbn.
  apply someInIterator_fmap.
Qed.

Lemma someValueInMap_strategies (map : M) predicate :
  someValueInMap (Some ff) map predicate = someValueInMap None map predicate.
Proof.
  unfold someValueInMap, someInMap. rewrite sm_forEach_fold, sm_values_enumerate.
  rewrite (foldl_found _ (λ kv, predicate kv.2)). cbn.
  apply someInIterator_fmap.
Qed.

Lemma _findMapValue_strategies (map : M) f :
  _findMapValue (Some ff) map f = _findMapValue None map f.
Proof.
  unfold _findMapValue. rewrite sm_forEach_fold, sm_values_enumerate.
  rewrite (foldl_result _ (λ value _, f value)). cbn.
  apply _findMapValue_loop_entries.
Qed.
End Strategies.

(** C2. On a map that has the iterator methods, and for functions that
    only compute a result from their arguments, the iterator branch and
    the [forEach] branch of [findInMap], [someInMap], [someKeyInMap],
    [someValueInMap] and [_findMapValue] return the same result. *)
Theorem C2_strategies_agree {M : Type} `{StringMapLaws M}
    (ff : FullyFeaturedMap M) `{!FullyFeaturedMapLaws M ff} (map : M) :
  (∀ f, findInMap (Some ff) map f = findInMap None map f)
  ∧ (∀ predicate, someInMap (Some ff) map predicate = someInMap None map predicate)
  ∧ (∀ predicate, someKeyInMap (Some ff) map predicate = someKeyInMap None map predicate)
  ∧ (∀ predicate, someValueInMap (Some ff) map predicate = someValueInMap None map predicate)
  ∧ (∀ f, _findMapValue (Some ff) map f = _findMapValue None map f).
Proof.
  repeat split; intros.
  - by apply findInMap_strategies.
  - by apply someInMap_strategies.
  - by apply someKeyInMap_strategies.
  - by apply someValueInMap_strategies.
  - by apply _findMapValue_strategies.
Qed.

Lemma C2_strategies_agree_witness :
  someInMap (Some NativeMap_FullyFeaturedMap) exampleNativeMap
            (λ key value, bool_decide (key = "b"))
  = someInMap None exampleNativeMap (λ key value, bool_decide (key = "b"))
  ∧ someInMap None exampleNativeMap (λ key value, bool_decide (key = "b")) = true.
Proof.
  split.
  - apply (C2_strategies_agree NativeMap_FullyFeaturedMap exampleNativeMap).
  - vm_compute. reflexivity.
Defined.

(** ** Equality of maps *)

Section SearchSpec.
Context {M : Type} `{StringMapLaws M}.
Variable fullyFeaturedMaps : option (FullyFeaturedMap M).
Hypothesis fullyFeaturedMaps_laws :
  ∀ ff, fullyFeaturedMaps = Some ff → FullyFeaturedMapLaws M ff.

Lemma someInMap_enumerate (map : M) predicate :
  someInMap fullyFeaturedMaps map predicate
  = someInIterator (sm_enumerate map) (λ kv, predicate kv.1 kv.2).
Proof.
  destruct fullyFeaturedMaps as [ff|] eqn:Hff.
  - pose proof (fullyFeaturedMaps_laws ff eq_refl) as Hlaws.
    unfold someInMap. rewrite sm_entries_enumerate.
    apply someInIterator_ext. by intros [key value].
  - unfold someInMap. rewrite sm_forEach_fold.
    by rewrite (foldl_found _ (λ kv, predicate kv.1 kv.2)).
Qed.

Lemma someKeyInMap_enumerate (map : M) predicate :
  someKeyInMap fullyFeaturedMaps map predicate
  = someInIterator (sm_enumerate map) (λ kv, predicate kv.1).
Proof.
  destruct fullyFeaturedMaps as [ff|] eqn:Hff.
  - pose proof (fullyFeaturedMaps_laws ff eq_refl) as Hlaws.
    unfold someKeyInMap. rewrite sm_keys_enumerate.
    apply someInIterator_fmap.
  - unfold someKeyInMap, someInMap. rewrite sm_forEach_fold.
    by rewrite (foldl_found _ (λ kv, predicate kv.1)).
Qed.

(** [someInMap] finds an entry exactly when the map has one that
    satisfies the predicate. *)
Lemma someInMap_spec (map : M) predicate :
  someInMap fullyFeaturedMaps map predicate = true
  ↔ ∃ key, sm_has map key = true ∧ predicate key (sm_get map key) = true.
Proof.
  rewrite someInMap_enumerate, someInIterator_exists. split.
  - intros ([key value] & Hin & Hp). apply sm_enumerate_spec in Hin as [Hhas <-]. eauto.
  - intros (key & Hhas & Hp). exists (key, sm_get map key).
    split; [by apply sm_enumerate_spec|done].
Qed.

Lemma someKeyInMap_spec (map : M) predicate :
  someKeyInMap fullyFeaturedMaps map predicate = true
  ↔ ∃ key, sm_has map key = true ∧ predicate key = true.
Proof.
  rewrite someKeyInMap_enumerate, someInIterator_exists. split.
  - intros ([key value] & Hin & Hp). apply sm_enumerate_spec in Hin as [Hhas <-]. eauto.
  - intros (key & Hhas & Hp). exists (key, sm_get map key).
    split; [by apply sm_enumerate_spec|done].
Qed.

(** What [_equalMaps] computes on two distinct references to maps. *)
Lemma _equalMaps_objects (σ : Store M) (l r : loc) equalityComparer :
  l ≠ r →
  _equalMaps fullyFeaturedMaps σ (RObject l) (RObject r) equalityComparer = true
  ↔ (∀ key, sm_has (σ l) key = true →
            sm_has (σ r) key = true
            ∧ default strictEquals equalityComparer (sm_get (σ l) key) (sm_get (σ r) key) = true)
    ∧ (∀ key, sm_has (σ r) key = true → sm_has (σ l) key = true).
Proof.
  intros Hne. unfold _equalMaps.
  rewrite bool_decide_eq_false_2 by congruence. cbn [Ref_absent orb].
  match goal with |- context [someInMap _ _ ?p] => set (noMatch := p) end.
  assert (HnoMatch : ∀ key value, noMatch key value = false
            ↔ sm_has (σ r) key = true
              ∧ default strictEquals equalityComparer value (sm_get (σ r) key) = true).
  { intros key value. unfold noMatch.
    destruct (sm_has (σ r) key); cbn.
    - rewrite negb_false_iff. destruct equalityComparer as [cmp|]; cbn; tauto.
    - split; [done|]. by intros [? _]. }
  destruct (someInMap fullyFeaturedMaps (σ l) noMatch) eqn:Hleft.
  - apply someInMap_spec in Hleft as (key & Hhas & Hp).
    split; [done|]. intros [Hall _].
    apply Hall, HnoMatch in Hhas. congruence.
  - assert (Hall : ∀ key, sm_has (σ l) key = true →
              sm_has (σ r) key = true
              ∧ default strictEquals equalityComparer (sm_get (σ l) key) (sm_get (σ r) key) = true).
    { intros key Hhas. apply HnoMatch.
      destruct (noMatch key (sm_get (σ l) key)) eqn:Hp; [|done].
      assert (someInMap fullyFeaturedMaps (σ l) noMatch = true) as Hsome
        by (apply someInMap_spec; eauto).
      congruence. }
    rewrite negb_true_iff, <- not_true_iff_false, someKeyInMap_spec. split.
    + intros Hnone. split; [done|]. intros key Hhas.
      destruct (sm_has (σ l) key) eqn:Hl; [done|].
      exfalso. apply Hnone. exists key. by rewrite Hl.
    + intros [_ Hright] (key & Hhas & Hnot). apply Hright in Hhas.
      rewrite Hhas in Hnot. done.
Qed.
End SearchSpec.

(** C3. [_equalMaps(left, right)] is true exactly when the two arguments
    are the same reference, or both are maps, every key of [left] is in
    [right] with an equal value ([===], or the comparer when one is
    given), and every key of [right] is in [left].  An absent argument
    that is not identical to the other gives false.  With the default
    comparison the function is symmetric. *)
Theorem C3_equalMaps_spec {M : Type} `{StringMapLaws M}
    (fullyFeaturedMaps : option (FullyFeaturedMap M))
    (fullyFeaturedMaps_laws : ∀ ff, fullyFeaturedMaps = Some ff → FullyFeaturedMapLaws M ff)
    (σ : Store M) (left right : Ref) (equalityComparer : option (Value → Value → bool)) :
  (_equalMaps fullyFeaturedMaps σ left right equalityComparer = true
   ↔ left = right
     ∨ ∃ l r, left = RObject l ∧ right = RObject r
         ∧ (∀ key, sm_has (σ l) key = true →
                   sm_has (σ r) key = true
                   ∧ default strictEquals equalityComparer
                       (sm_get (σ l) key) (sm_get (σ r) key) = true)
         ∧ (∀ key, sm_has (σ r) key = true → sm_has (σ l) key = true))
  ∧ (left ≠ right → Ref_absent left = true ∨ Ref_absent right = true →
     _equalMaps fullyFeaturedMaps σ left right equalityComparer = false)
  ∧ _equalMaps fullyFeaturedMaps σ left right None
    = _equalMaps fullyFeaturedMaps σ right left None.
Proof.
  split; [|split].
  - destruct (decide (left = right)) as [->|Hne].
    { unfold _equalMaps. rewrite bool_decide_eq_true_2 by done. split; [by left|done]. }
    destruct left as [| |l], right as [| |r];
      try (unfold _equalMaps; rewrite bool_decide_eq_false_2 by done; cbn;
           split; [done|]; intros [?|(l' & r' & ? & ? & _)]; congruence).
    rewrite (_equalMaps_objects _ fullyFeaturedMaps_laws σ l r) by congruence. split.
    + intros [Hl Hr]. right. by exists l, r.
    + intros [?|(l' & r' & [= <-] & [= <-] & Hl & Hr)]; [congruence|done].
  - intros Hne Habsent. unfold _equalMaps. rewrite bool_decide_eq_false_2 by done.
    destruct left, right; try done. destruct Habsent; done.
  - destruct (decide (left = right)) as [->|Hne]; [done|].
    destruct left as [| |l], right as [| |r];
      try (unfold _equalMaps; rewrite !bool_decide_eq_false_2 by done; cbn; done).
    apply eq_iff_eq_true.
    rewrite (_equalMaps_objects _ fullyFeaturedMaps_laws σ l r) by congruence.
    rewrite (_equalMaps_objects _ fullyFeaturedMaps_laws σ r l) by congruence. cbn.
    split; intros [Hl Hr]; (split; [|intros key Hhas; by apply Hl]);
      intros key Hhas; (split; [by apply Hr|]);
      rewrite strictEquals_sym; by apply Hl, Hr.
Qed.

Lemma C3_equalMaps_spec_witness :
  _equalMaps (M := ShimStringMap) None exampleMapStore (RObject 0%nat) (RObject 1%nat) None
  = _equalMaps (M := ShimStringMap) None exampleMapStore (RObject 1%nat) (RObject 0%nat) None
  ∧ _equalMaps (M := ShimStringMap) None exampleMapStore (RObject 0%nat) (RObject 1%nat) None = true.
Proof.
  split.
  - refine (proj2 (proj2 (C3_equalMaps_spec (M := ShimStringMap) None _
                            exampleMapStore (RObject 0%nat) (RObject 1%nat) None))).
    intros ff Hff. discriminate Hff.
  - vm_compute. reflexivity.
Defined.

(** ** Equality of records *)

(** C4. [equalOwnProperties] is not the symmetric equality of own fields:
    the test that [right] owns the key of [left] compares a boolean with
    [undefined] and never fires, so a field of [left] that holds
    [undefined] is matched by a missing field of [right].  With
    [{ a: undefined }] as [left] and [{}] as [right] the result is true
    although [right] does not own [a], and it is false with the arguments
    exchanged. *)
Theorem C4_equalOwnProperties_misses_own_check :
  hasOwnProperty_call (exampleRecordStore 0%nat) "a" = true
  ∧ hasOwnProperty_call (exampleRecordStore 1%nat) "a" = false
  ∧ equalOwnProperties exampleRecordStore (RObject 0%nat) (RObject 1%nat) None = true
  ∧ equalOwnProperties exampleRecordStore (RObject 1%nat) (RObject 0%nat) None = false.
Proof. repeat split; vm_compute; reflexivity. Qed.

(** ** The fallback number map *)

Lemma ShimNumberMap_forEach_step_Throw {S : Type} (step : Result S → string → Result S)
    (keys : list string) (e : Error) :
  (∀ key, step (Throw e) key = Throw e) → foldl step (Throw e) keys = Throw e.
Proof.
  intros Hstep. induction keys as [|key keys IH]; cbn; [done|]. by rewrite Hstep.
Qed.

(** On any map that is not empty, [forEach] fails its assertion at the
    first key, before the action runs. *)
Lemma ShimNumberMap_forEach_nonempty {S : Type} (action : Value → Value → S → S)
    (this : ShimNumberMap) (s : S) :
  ShimNumberMap_data this ≠ ∅ →
  ShimNumberMap_forEach action this s = Throw AssertionFailure.
Proof.
  intros Hne. unfold ShimNumberMap_forEach, Dict_forIn.
  destruct (map_to_list (ShimNumberMap_data this)) as [|[key value] entries] eqn:Hentries.
  { by apply map_to_list_empty_iff in Hentries. }
  cbn. by apply ShimNumberMap_forEach_step_Throw.
Qed.

Lemma ShimNumberMap_forEach_empty {S : Type} (action : Value → Value → S → S) (s : S) :
  ShimNumberMap_forEach action (ShimNumberMap_new None) s = Ok s.
Proof.
  unfold ShimNumberMap_forEach, Dict_forIn. cbn. by rewrite map_to_list_empty.
Qed.

(** The other operations of the number map are total functions; [get] of
    a missing key is [undefined] and [delete] of a missing key changes
    nothing. *)
Lemma ShimNumberMap_missing_key (this : ShimNumberMap) (key : Z) :
  ShimNumberMap_has this key = false →
  ShimNumberMap_get this key = VUndefined
  ∧ ShimNumberMap_data (ShimNumberMap_delete key this) = ShimNumberMap_data this.
Proof.
  unfold ShimNumberMap_has, ShimNumberMap_get, ShimNumberMap_delete. cbn.
  intros Hhas. split; [by apply Dict_get_absent|].
  by apply delete_id, Dict_in_false.
Qed.

(** C5. The operations of the containers do not all complete: on the
    fallback number map built from the pair [(1, "a")], the loop of
    [forEach] visits the key ["1"], the asserted expression
    [typeof key === "number"] is false there, and [forEach] raises. *)
Theorem C5_ShimNumberMap_forEach_raises :
  let map := ShimNumberMap_new (Some [(1, VString "a")]) in
  ShimNumberMap_has map 1 = true
  ∧ Dict_forIn (ShimNumberMap_data map) = ["1"]
  ∧ bool_decide (typeof (VString "1") = "number") = false
  ∧ ShimNumberMap_forEach (λ value key (count : Z), count + 1) map 0
    = Throw AssertionFailure.
Proof. repeat split; vm_compute; reflexivity. Qed.

(** ** The fallback string set *)

Lemma foldl_collect {A : Type} (l acc : list A) :
  foldl (λ acc x, acc ++ [x]) acc l = acc ++ l.
Proof.
  revert acc. induction l as [|x l IH]; intros acc; cbn.
  - by rewrite app_nil_r.
  - rewrite IH, <- app_assoc. done.
Qed.

Lemma ShimSet_members_keys (this : ShimSet) :
  ShimSet_members this = (map_to_list (ShimSet_data this)).*1.
Proof.
  unfold ShimSet_members, ShimSet_forEach, Dict_forIn. apply (foldl_collect _ []).
Qed.

Lemma ShimSet_members_length (this : ShimSet) :
  length (ShimSet_members this) = size (ShimSet_data this).
Proof.
  rewrite ShimSet_members_keys, length_fmap. apply length_map_to_list.
Qed.

(** The members are distinct, and they are the values that [has] reports. *)
Lemma ShimSet_members_spec (this : ShimSet) :
  NoDup (ShimSet_members this)
  ∧ ∀ value, value ∈ ShimSet_members this ↔ ShimSet_has this value = true.
Proof.
  rewrite ShimSet_members_keys. split; [apply NoDup_fst_map_to_list|].
  intros value. unfold ShimSet_has. rewrite Dict_in_true, list_elem_of_fmap. split.
  - intros ([k v] & -> & Hin). apply elem_of_map_to_list in Hin. by exists v.
  - intros [v Hv]. exists (value, v). split; [done|]. by apply elem_of_map_to_list.
Qed.

(** C6. The fallback set keeps [size] equal to the number of its members,
    which are distinct: the invariant holds of a new set and is preserved
    by [add] and [delete].  [add] of a member leaves [size] (and the set)
    unchanged, [add] of a new value increments it, [delete] of a member
    decrements it, and [delete] of a value that is not a member leaves it
    unchanged. *)
Theorem C6_ShimSet_size_invariant :
  ShimSet_inv ShimSet_new
  ∧ (∀ this, NoDup (ShimSet_members this)
             ∧ ∀ value, value ∈ ShimSet_members this ↔ ShimSet_has this value = true)
  ∧ ∀ this value,
      (ShimSet_inv this → ShimSet_inv (ShimSet_add value this))
      ∧ (ShimSet_inv this → ShimSet_inv (ShimSet_delete value this))
      ∧ (ShimSet_has this value = true →
           ShimSet_add value this = this
           ∧ ShimSet_size (ShimSet_delete value this) = ShimSet_size this - 1)
      ∧ (ShimSet_has this value = false →
           ShimSet_size (ShimSet_add value this) = ShimSet_size this + 1
           ∧ ShimSet_delete value this = this)
      ∧ ShimSet_add value (ShimSet_add value this) = ShimSet_add value this
      ∧ ShimSet_has (ShimSet_add value this) value = true
      ∧ ShimSet_has (ShimSet_delete value this) value = false.
Proof.
  split; [|split; [apply ShimSet_members_spec|]].
  { unfold ShimSet_inv. rewrite ShimSet_members_length. cbn.
    by rewrite createDictionaryModeObject_empty, map_size_empty. }
  intros this value.
  assert (Hadd : ShimSet_has (ShimSet_add value this) value = true).
  { unfold ShimSet_add. destruct (ShimSet_has this value) eqn:Hhas; cbn; [done|].
    unfold ShimSet_has. cbn. rewrite Dict_in_insert. by destruct (decide (value = value)). }
  assert (Hdelete : ShimSet_has (ShimSet_delete value this) value = false).
  { unfold ShimSet_delete. destruct (ShimSet_has this value) eqn:Hhas; cbn; [|done].
    unfold ShimSet_has. cbn. rewrite Dict_in_delete. by destruct (decide (value = value)). }
  unfold ShimSet_inv. rewrite !ShimSet_members_length.
  split; [|split; [|split; [|split; [|split; [|split]]]]]; try done.
  - intros Hinv. unfold ShimSet_add.
    destruct (ShimSet_has this value) eqn:Hhas; cbn; [done|].
    apply Dict_in_false in Hhas. rewrite map_size_insert_None by done. lia.
  - intros Hinv. unfold ShimSet_delete.
    destruct (ShimSet_has this value) eqn:Hhas; cbn; [|done].
    apply Dict_in_true in Hhas.
    rewrite map_size_delete_Some by done.
    assert (size (ShimSet_data this) ≠ O) as Hsize.
    { intros Hempty%map_size_empty_iff. rewrite Hempty, lookup_empty in Hhas.
      by destruct Hhas. }
    lia.
  - intros Hhas. unfold ShimSet_add, ShimSet_delete. by rewrite Hhas.
  - intros Hhas. unfold ShimSet_add, ShimSet_delete. by rewrite Hhas.
  - unfold ShimSet_add at 1. by rewrite Hadd.
Qed.

Lemma C6_ShimSet_size_invariant_witness :
  ShimSet_inv exampleShimSet
  ∧ ShimSet_inv (ShimSet_delete "x" exampleShimSet)
  ∧ ShimSet_size (ShimSet_delete "x" exampleShimSet) = 1.
Proof.
  assert (Hinv : ShimSet_inv exampleShimSet) by (vm_compute; reflexivity).
  split; [exact Hinv|]. split.
  - exact (proj1 (proj2 (proj2 (proj2 C6_ShimSet_size_invariant) exampleShimSet "x")) Hinv).
  - vm_compute. reflexivity.
Defined.

(** ** Sorting in the insertion order of V8 objects *)

Section ArraySort.
Context {T : Type} (compareFn : T → T → Double).

Lemma Array_sort_insert_Permutation (x : T) (sorted : list T) :
  Array_sort_insert compareFn x sorted ≡ₚ x :: sorted.
Proof.
  induction sorted as [|y sorted IH]; cbn; [done|].
  destruct (Double_positive (compareFn x y)); [|done].
  rewrite IH. apply Permutation_swap.
Qed.

Lemma Array_sort_Permutation (array : list T) : Array_sort compareFn array ≡ₚ array.
Proof.
  induction array as [|x array IH]; cbn; [done|].
  by rewrite Array_sort_insert_Permutation, IH.
Qed.

(** When [compareFn] is positive just where an integer key of its first
    argument is above that of its second, the result is in ascending
    order of the key. *)
Context (key : T → Z) (domain : T → Prop).
Hypothesis compareFn_key :
  ∀ a b, domain a → domain b → Double_positive (compareFn a b) = (key b <? key a).



End ArraySort.


(** *** Rounding to doubles *)









(** *** Keys that look like naturals *)






(** The loop that pushes each value on [naturals] or on [everythingElse]
    keeps the order of the input in both. *)
Lemma sortInV8ObjectInsertionOrder_partition {T : Type} (values : list T) (toKey : T → string)
    (naturals everythingElse : list T) :
  foldl (λ '(naturals, everythingElse) value,
           let looksLikeNatural := looksLikeNatural (toKey value) in
           if looksLikeNatural then (naturals ++ [value], everythingElse)
           else (naturals, everythingElse ++ [value]))
        (naturals, everythingElse) values
  = (naturals ++ filter (λ value, looksLikeNatural (toKey value) = true) values,
     everythingElse ++ filter (λ value, ¬ looksLikeNatural (toKey value) = true) values).
Proof.
  revert naturals everythingElse.
  induction values as [|value values IH]; intros naturals everythingElse; cbn [foldl].
  - by rewrite !filter_nil, !app_nil_r.
  - destruct (looksLikeNatural (toKey value)) eqn:Hnat; rewrite IH.
    + rewrite filter_cons_True by done. rewrite filter_cons_False by (by intros []).
      by rewrite <- app_assoc.
    + rewrite filter_cons_False by congruence. rewrite filter_cons_True by congruence.
      by rewrite <- app_assoc.
Qed.




(** ** Conversions between maps and records *)

Lemma hasOwnProperty_call_true (object : MapLike) (key : string) :
  hasOwnProperty_call object key = true ↔ is_Some (MapLike_own object !! key).
Proof. unfold hasOwnProperty_call. apply bool_decide_eq_true. Qed.

Lemma MapLike_read_own (object : MapLike) (key : string) (value : Value) :
  MapLike_own object !! key = Some value → MapLike_read object key = value.
Proof. intros Hown. unfold MapLike_read. by rewrite Hown. Qed.

(** [for .. in] visits every own key. *)
Lemma MapLike_forIn_own (object : MapLike) (key : string) :
  is_Some (MapLike_own object !! key) → key ∈ MapLike_forIn object.
Proof.
  intros [value Hown]. unfold MapLike_forIn, Dict_forIn.
  apply elem_of_app. left. apply list_elem_of_fmap.
  exists (key, value). split; [done|]. by apply elem_of_map_to_list.
Qed.

(** Assigning the entries of a list without repeated keys to an object. *)
Lemma foldl_assign_lookup (entries : list (string * Value)) (obj : Dict) (key : string) :
  NoDup entries.*1 →
  (∃ value, (key, value) ∈ entries
            ∧ (foldl (λ obj kv, <[kv.1 := kv.2]> obj) obj entries) !! key = Some value)
  ∨ ((key ∉ entries.*1)
     ∧ (foldl (λ obj kv, <[kv.1 := kv.2]> obj) obj entries) !! key = obj !! key).
Proof.
  revert obj. induction entries as [|[k v] entries IH]; intros obj Hnodup; cbn.
  - right. split; [apply not_elem_of_nil|done].
  - cbn in Hnodup. apply NoDup_cons in Hnodup as [Hk Hnodup].
    destruct (IH (<[k := v]> obj) Hnodup) as [(value & Hin & Hlookup)|[Hnotin Hlookup]].
    + left. exists value. split; [by apply list_elem_of_further|done].
    + rewrite Hlookup, lookup_insert. destruct (decide (k = key)) as [->|Hne].
      * left. exists v. split; [apply list_elem_of_here|done].
      * right. split; [|done]. intros [?|?]%elem_of_cons; congruence.
Qed.

Section Conversions.
Context {M : Type} `{StringMapLaws M}.

(** The record made from a map owns the entries of the map. *)
Lemma mapLikeOfMap_own (map : M) (key : string) :
  MapLike_own (mapLikeOfMap map) !! key
  = if sm_has map key then Some (sm_get map key) else None.
Proof.
  unfold mapLikeOfMap. cbn. rewrite sm_forEach_fold, createDictionaryModeObject_empty.
  destruct (foldl_assign_lookup (sm_enumerate map) ∅ key (sm_enumerate_NoDup map))
    as [(value & Hin & ->)|[Hnotin ->]].
  - apply sm_enumerate_spec in Hin as [-> ->]. done.
  - rewrite lookup_empty. destruct (sm_has map key) eqn:Hhas; [|done].
    exfalso. apply Hnotin. apply list_elem_of_fmap.
    exists (key, sm_get map key). split; [done|]. by apply sm_enumerate_spec.
Qed.

(** The loop of [mapOfMapLike], from any map and over any keys. *)
Lemma mapOfMapLike_loop (object : MapLike) (keys : list string) (map : M) (key : string) :
  let result :=
    foldl (λ map key,
             if hasProperty object key then sm_set key (MapLike_read object key) map
             else map)
          map keys in
  if bool_decide (key ∈ keys) && hasOwnProperty_call object key
  then sm_has result key = true ∧ sm_get result key = MapLike_read object key
  else sm_has result key = sm_has map key ∧ sm_get result key = sm_get map key.
Proof.
  revert map. induction keys as [|k keys IH]; intros map; cbn.
  - rewrite bool_decide_eq_false_2 by apply not_elem_of_nil. done.
  - specialize (IH (if hasProperty object k
                    then sm_set k (MapLike_read object k) map else map)).
    cbn in IH. unfold hasProperty in *.
    destruct (decide (key ∈ keys)) as [Hin|Hnotin].
    + rewrite bool_decide_eq_true_2 in IH by done.
      rewrite bool_decide_eq_true_2 by (by apply list_elem_of_further).
      cbn in *. destruct (hasOwnProperty_call object key) eqn:Hown; [done|].
      destruct IH as [-> ->].
      destruct (hasOwnProperty_call object k) eqn:Hownk; [|done].
      rewrite sm_has_set, sm_get_set. destruct (decide (k = key)); [congruence|done].
    + rewrite bool_decide_eq_false_2 in IH by done. cbn in IH. destruct IH as [-> ->].
      destruct (decide (k = key)) as [->|Hne].
      * rewrite bool_decide_eq_true_2 by apply list_elem_of_here. cbn.
        destruct (hasOwnProperty_call object key); [|done].
        rewrite sm_has_set, sm_get_set. by destruct (decide (key = key)).
      * rewrite bool_decide_eq_false_2 by (intros [?|?]%elem_of_cons; congruence). cbn.
        destruct (hasOwnProperty_call object k); [|done].
        rewrite sm_has_set, sm_get_set. by destruct (decide (k = key)).
Qed.

(** The map made from a record has the own fields of the record. *)
Lemma mapOfMapLike_spec (object : MapLike) (key : string) :
  sm_has (mapOfMapLike object : M) key = hasOwnProperty_call object key
  ∧ sm_get (mapOfMapLike object : M) key = Dict_get (MapLike_own object) key.
Proof.
  pose proof (mapOfMapLike_loop object (MapLike_forIn object) sm_new key) as Hloop.
  cbn in Hloop. unfold mapOfMapLike.
  destruct (hasOwnProperty_call object key) eqn:Hown.
  - apply hasOwnProperty_call_true in Hown.
    rewrite bool_decide_eq_true_2 in Hloop by (by apply MapLike_forIn_own).
    cbn in Hloop. destruct Hloop as [-> ->]. split; [done|].
    destruct Hown as [value Hown]. unfold Dict_get. rewrite Hown.
    by apply MapLike_read_own.
  - rewrite andb_false_r in Hloop. destruct Hloop as [-> ->].
    rewrite sm_has_new. split; [done|].
    rewrite (sm_get_absent _ _ (sm_has_new key)).
    apply bool_decide_eq_false in Hown. unfold Dict_get.
    destruct (MapLike_own object !! key) eqn:Hlookup; [|done].
    exfalso. apply Hown. eauto.
Qed.

(** A map, turned into a record and back, has the same entries. *)
Lemma mapOfMapLike_mapLikeOfMap (map : M) (key : string) :
  sm_has (mapOfMapLike (mapLikeOfMap map) : M) key = sm_has map key
  ∧ sm_get (mapOfMapLike (mapLikeOfMap map) : M) key = sm_get map key.
Proof.
  destruct (mapOfMapLike_spec (mapLikeOfMap map) key) as [-> ->].
  unfold hasOwnProperty_call, Dict_get. rewrite mapLikeOfMap_own.
  destruct (sm_has map key) eqn:Hhas.
  - rewrite bool_decide_eq_true_2 by eauto. done.
  - rewrite bool_decide_eq_false_2 by (by intros [? ?]). cbn. by rewrite sm_get_absent.
Qed.

(** A record, turned into a map and back, has the same own fields. *)
Lemma mapLikeOfMap_mapOfMapLike (object : MapLike) :
  MapLike_own (mapLikeOfMap (mapOfMapLike object : M)) = MapLike_own object.
Proof.
  apply map_eq. intros key. rewrite mapLikeOfMap_own.
  destruct (mapOfMapLike_spec object key) as [-> ->].
  unfold hasOwnProperty_call, Dict_get.
  destruct (MapLike_own object !! key) eqn:Hlookup.
  - rewrite bool_decide_eq_true_2 by eauto. done.
  - rewrite bool_decide_eq_false_2 by (by intros [? ?]). done.
Qed.
End Conversions.

(** C10, as the code has it.  A map whose values are all identical to
    themselves (none is [NaN]), turned into a record and back, is equal to
    the original under [_equalMaps]; and a record turned into a map and
    back has exactly the own fields, with the values, of the original. *)
Theorem C10_roundtrip {M : Type} `{StringMapLaws M}
    (fullyFeaturedMaps : option (FullyFeaturedMap M))
    (fullyFeaturedMaps_laws : ∀ ff, fullyFeaturedMaps = Some ff → FullyFeaturedMapLaws M ff) :
  (∀ (σ : Store M) (l l' : loc),
     σ l' = mapOfMapLike (mapLikeOfMap (σ l)) →
     (∀ key, sm_has (σ l) key = true → sm_get (σ l) key ≠ VNumber NaN) →
     _equalMaps fullyFeaturedMaps σ (RObject l') (RObject l) None = true)
  ∧ (∀ object : MapLike,
       MapLike_own (mapLikeOfMap (mapOfMapLike object : M)) = MapLike_own object).
Proof.
  split; [|apply mapLikeOfMap_mapOfMapLike].
  intros σ l l' Hl' Hvalues.
  destruct (decide (l' = l)) as [->|Hne].
  { unfold _equalMaps. by rewrite bool_decide_eq_true_2. }
  apply (_equalMaps_objects _ fullyFeaturedMaps_laws); [done|].
  rewrite Hl'. split.
  - intros key Hhas.
    destruct (mapOfMapLike_mapLikeOfMap (σ l) key) as [Hsame ->].
    rewrite Hsame in Hhas. split; [done|]. cbn. by apply strictEquals_refl, Hvalues.
  - intros key Hhas. by destruct (mapOfMapLike_mapLikeOfMap (σ l) key) as [-> _].
Qed.

Lemma C10_roundtrip_witness :
  _equalMaps (M := ShimStringMap) None exampleRoundTripStore (RObject 1%nat) (RObject 0%nat) None
  = true.
Proof.
  refine (proj1 (C10_roundtrip (M := ShimStringMap) None _) exampleRoundTripStore 0%nat 1%nat _ _).
  - intros ff Hff. discriminate Hff.
  - reflexivity.
  - intros key. cbn. unfold ShimStringMap_has, ShimStringMap_get. cbn.
    rewrite !Dict_in_insert, !Dict_get_insert.
    destruct (decide ("b" = key)); [done|].
    destruct (decide ("a" = key)); [done|].
    rewrite createDictionaryModeObject_empty, Dict_in_empty. done.
Defined.

(** The claim C10 as stated fails on a map that holds [NaN]: the map made
    from its record is not equal to it under [_equalMaps]. *)
Lemma C10_roundtrip_counterexample :
  exampleNaNStore 1%nat = mapOfMapLike (mapLikeOfMap (exampleNaNStore 0%nat))
  ∧ _equalMaps (M := ShimStringMap) None exampleNaNStore (RObject 1%nat) (RObject 0%nat) None
    = false.
Proof. split; [reflexivity|vm_compute; reflexivity]. Qed.

(** ** Multimaps *)

Lemma Array_indexOf_None (elems : list Value) (item : Value) :
  occursIn elems item = false → Array_indexOf elems item = None.
Proof.
  induction elems as [|element elems IH]; cbn; [done|].
  destruct (strictEquals element item); cbn; [done|].
  intros Hrest. by rewrite IH.
Qed.

Lemma Array_indexOf_Some (elems : list Value) (item : Value) :
  occursIn elems item = true →
  ∃ before after, elems = before ++ item :: after
                  ∧ Array_indexOf elems item = Some (length before).
Proof.
  induction elems as [|element elems IH]; cbn; [done|].
  destruct (strictEquals element item) eqn:Heq; cbn.
  - intros _. apply strictEquals_true in Heq as ->. by exists [], elems.
  - intros (before & after & -> & ->)%IH. by exists (element :: before), after.
Qed.

Lemma unorderedRemoveItem_elems_absent (elems : list Value) (item : Value) :
  occursIn elems item = false → unorderedRemoveItem_elems elems item = elems.
Proof.
  intros Habsent. unfold unorderedRemoveItem_elems. by rewrite Array_indexOf_None.
Qed.

(** Removing an item that occurs takes one occurrence out and keeps the
    other elements, in some order. *)
Lemma unorderedRemoveItem_elems_Permutation (elems : list Value) (item : Value) :
  occursIn elems item = true → elems ≡ₚ item :: unorderedRemoveItem_elems elems item.
Proof.
  intros (before & after & -> & Hindex)%Array_indexOf_Some.
  unfold unorderedRemoveItem_elems. rewrite Hindex.
  destruct (decide (after = [])) as [->|Hafter].
  - rewrite last_snoc.
    rewrite list_insert_id by (by apply list_lookup_middle).
    rewrite removelast_last. by rewrite Permutation_app_comm.
  - destruct (exists_last Hafter) as (after' & lastElement & ->).
    rewrite last_app_cons, app_comm_cons, last_snoc.
    replace (<[length before := lastElement]> (before ++ (item :: after') ++ [lastElement]))
      with ((before ++ lastElement :: after') ++ [lastElement]).
    + rewrite removelast_last. cbn.
      etrans; [symmetry; apply Permutation_middle|].
      apply Permutation_skip, Permutation_app_head.
      apply (Permutation_app_comm after' [lastElement]).
    + rewrite <- app_assoc, <- !app_comm_cons.
      rewrite (insert_app_r_alt before) by done.
      by rewrite Nat.sub_diag.
Qed.

Lemma Heap_write_same (l : loc) (elems : list Value) (h : Heap) :
  Heap_arrays (Heap_write l elems h) l = elems.
Proof. cbn. by destruct (decide (l = l)). Qed.

Section MultiMapSpec.
Context {M : Type} `{StringMapLaws M}.
Implicit Types (map : M) (key : string) (value : Value) (h : Heap).

Lemma multiMapAdd_present map key value h (l : loc) :
  sm_get map key = VObject l →
  multiMapAdd map key value h
  = Ok (VObject l, map, Heap_write l (Heap_arrays h l ++ [value]) h).
Proof. intros Hget. unfold multiMapAdd. by rewrite Hget. Qed.

Lemma multiMapAdd_absent map key value h :
  sm_has map key = false →
  multiMapAdd map key value h
  = Ok (VObject (Heap_next h), sm_set key (VObject (Heap_next h)) map,
        (Array_literal [value] h).2).
Proof.
  intros Hhas. unfold multiMapAdd. by rewrite (sm_get_absent _ _ Hhas).
Qed.

Lemma multiMapRemove_absent map key value h :
  sm_has map key = false → multiMapRemove map key value h = Ok (map, h).
Proof.
  intros Hhas. unfold multiMapRemove. by rewrite (sm_get_absent _ _ Hhas).
Qed.

Lemma multiMapRemove_present map key value h (l : loc) :
  sm_get map key = VObject l →
  multiMapRemove map key value h
  = Ok (if bool_decide (unorderedRemoveItem_elems (Heap_arrays h l) value = [])
        then sm_delete key map else map,
        Heap_write l (unorderedRemoveItem_elems (Heap_arrays h l) value) h).
Proof.
  intros Hget. unfold multiMapRemove. rewrite Hget. cbn.
  destruct (decide (l = l)); [|done].
  destruct (unorderedRemoveItem_elems (Heap_arrays h l) value); done.
Qed.
End MultiMapSpec.

Lemma exampleMultiMap_typed : MultiMap_typed exampleMultiMap.
Proof.
  intros key. cbn. unfold ShimStringMap_has, ShimStringMap_get. cbn.
  rewrite !Dict_in_insert, !Dict_get_insert.
  destruct (decide ("b" = key)); [by eauto|].
  destruct (decide ("a" = key)); [by eauto|].
  rewrite createDictionaryModeObject_empty, Dict_in_empty. done.
Qed.

(** C8.  The code departs from the claim, and from the comment on
    [multiMapRemove] (it does nothing if the value is not in the array of
    the key), on a key that holds the empty array: the map has the key
    [b], the array that it holds is empty, so that the value 1 is not in
    it, and [multiMapRemove] of 1 under [b] deletes the key. *)
Theorem C8_multiMapRemove_deletes_key_of_empty_array :
  sm_has exampleMultiMap "b" = true
  ∧ sm_get exampleMultiMap "b" = VObject 1%nat
  ∧ Heap_arrays exampleHeap 1%nat = []
  ∧ occursIn (Heap_arrays exampleHeap 1%nat) (VNumber (Integer 1)) = false
  ∧ match multiMapRemove exampleMultiMap "b" (VNumber (Integer 1)) exampleHeap with
    | Ok (map', _) => sm_has map' "b"
    | Throw _ => true
    end = false.
Proof. repeat split; vm_compute; reflexivity. Qed.

(** * Further properties *)

(** ** Copying and building maps *)

Section AssignEntries.
Context {M : Type} `{StringMapLaws M}.

(** Setting, in a map, the entries of a list without repeated keys, each
    value going through [g]. *)
Lemma foldl_sm_set (g : Value → Value) (entries : list (string * Value)) (target : M)
    (key : string) :
  NoDup entries.*1 →
  let result := foldl (λ target kv, sm_set kv.1 (g kv.2) target) target entries in
  (∃ value, (key, value) ∈ entries
            ∧ sm_has result key = true ∧ sm_get result key = g value)
  ∨ ((key ∉ entries.*1)
     ∧ sm_has result key = sm_has target key ∧ sm_get result key = sm_get target key).
Proof.
  revert target. induction entries as [|[k v] entries IH]; intros target Hnodup; cbn.
  - right. split; [apply not_elem_of_nil|done].
  - cbn in Hnodup. apply NoDup_cons in Hnodup as [Hk Hnodup].
    destruct (IH (sm_set k (g v) target) Hnodup)
      as [(value & Hin & Hhas & Hget)|(Hnotin & Hhas & Hget)].
    + left. exists value. split; [by apply list_elem_of_further|done].
    + cbn in Hhas, Hget. rewrite Hhas, Hget, sm_has_set, sm_get_set.
      destruct (decide (k = key)) as [->|Hne].
      * left. exists v. split; [apply list_elem_of_here|done].
      * right. split; [|done]. intros [?|?]%elem_of_cons; congruence.
Qed.

Lemma copyMapPropertiesFromTo_entries (source target : M) (key : string) :
  sm_has (copyMapPropertiesFromTo source target) key = sm_has source key || sm_has target key
  ∧ sm_get (copyMapPropertiesFromTo source target) key
    = if sm_has source key then sm_get source key else sm_get target key.
Proof.
  unfold copyMapPropertiesFromTo. rewrite sm_forEach_fold.
  pose proof (foldl_sm_set id (sm_enumerate source) target key (sm_enumerate_NoDup source))
    as Hspec.
  cbn in Hspec. cbn.
  destruct Hspec as [(value & Hin & -> & ->)|(Hnotin & -> & ->)].
  - apply sm_enumerate_spec in Hin as [-> ->]. done.
  - destruct (sm_has source key) eqn:Hhas; [|done].
    exfalso. apply Hnotin, list_elem_of_fmap.
    exists (key, sm_get source key). split; [done|]. by apply sm_enumerate_spec.
Qed.

Lemma cloneMap_entries (map : M) (key : string) :
  sm_has (cloneMap map) key = sm_has map key ∧ sm_get (cloneMap map) key = sm_get map key.
Proof.
  unfold cloneMap.
  destruct (copyMapPropertiesFromTo_entries map sm_new key) as [-> ->].
  rewrite sm_has_new, orb_false_r. split; [done|].
  destruct (sm_has map key) eqn:Hhas; [done|].
  by rewrite (sm_get_absent _ _ Hhas), (sm_get_absent _ _ (sm_has_new key)).
Qed.

Lemma _mapValuesMutate_entries (map : M) (mapValue : Value → Value) (key : string) :
  sm_has (_mapValuesMutate map mapValue) key = sm_has map key
  ∧ sm_get (_mapValuesMutate map mapValue) key
    = if sm_has map key then mapValue (sm_get map key) else VUndefined.
Proof.
  unfold _mapValuesMutate. rewrite sm_forEach_fold.
  pose proof (foldl_sm_set mapValue (sm_enumerate map) map key (sm_enumerate_NoDup map))
    as Hspec.
  cbn in Hspec. cbn.
  destruct Hspec as [(value & Hin & -> & ->)|(Hnotin & -> & ->)].
  - apply sm_enumerate_spec in Hin as [-> ->]. done.
  - destruct (sm_has map key) eqn:Hhas.
    + exfalso. apply Hnotin, list_elem_of_fmap.
      exists (key, sm_get map key). split; [done|]. by apply sm_enumerate_spec.
    + split; [done|]. by apply sm_get_absent.
Qed.

(** The loop of [arrayToMap], from any map. *)
Lemma arrayToMap_loop (array : list Value) (makeKey : Value → string)
    (makeValue : Value → Value) (result : M) (key : string) :
  let final := foldl (λ result value, sm_set (makeKey value) (makeValue value) result)
                     result array in
  (sm_has final key = true
   ↔ (∃ value, value ∈ array ∧ makeKey value = key) ∨ sm_has result key = true)
  ∧ ((∀ value, value ∈ array → makeKey value ≠ key) → sm_get final key = sm_get result key).
Proof.
  revert result. induction array as [|x array IH]; intros result; cbn.
  - split; [|done]. split; [by right|]. intros [(value & Hin & _)|?]; [|done].
    by apply elem_of_nil in Hin.
  - destruct (IH (sm_set (makeKey x) (makeValue x) result)) as [IHhas IHget].
    cbn in IHhas, IHget. split.
    + rewrite IHhas, sm_has_set. split.
      * intros [(value & Hin & Hkey)|Hset].
        -- left. exists value. split; [by apply list_elem_of_further|done].
        -- destruct (decide (makeKey x = key)); [|by right].
           left. exists x. split; [apply list_elem_of_here|done].
      * intros [(value & [->|Hin]%elem_of_cons & Hkey)|Hhas].
        -- right. by rewrite decide_True.
        -- left. eauto.
        -- right. by destruct (decide (makeKey x = key)).
    + intros Hnone. rewrite IHget.
      * rewrite sm_get_set, decide_False; [done|]. apply Hnone, list_elem_of_here.
      * intros value Hin. by apply Hnone, list_elem_of_further.
Qed.
End AssignEntries.

(** X1. The clone of a map has the keys of the map, with the same values,
    and is equal to it under [_equalMaps] when none of the values is
    [NaN]. *)
Theorem X1_cloneMap_equal {M : Type} `{StringMapLaws M}
    (fullyFeaturedMaps : option (FullyFeaturedMap M))
    (fullyFeaturedMaps_laws : ∀ ff, fullyFeaturedMaps = Some ff → FullyFeaturedMapLaws M ff) :
  (∀ (map : M) key,
     sm_has (cloneMap map) key = sm_has map key
     ∧ sm_get (cloneMap map) key = sm_get map key)
  ∧ (∀ (σ : Store M) (l l' : loc),
       σ l' = cloneMap (σ l) →
       (∀ key, sm_has (σ l) key = true → sm_get (σ l) key ≠ VNumber NaN) →
       _equalMaps fullyFeaturedMaps σ (RObject l') (RObject l) None = true).
Proof.
  split; [apply cloneMap_entries|].
  intros σ l l' Hl' Hvalues.
  destruct (decide (l' = l)) as [->|Hne].
  { unfold _equalMaps. by rewrite bool_decide_eq_true_2. }
  apply (_equalMaps_objects _ fullyFeaturedMaps_laws); [done|].
  rewrite Hl'. split.
  - intros key Hhas. destruct (cloneMap_entries (σ l) key) as [Hsame ->].
    rewrite Hsame in Hhas. split; [done|]. cbn. by apply strictEquals_refl, Hvalues.
  - intros key Hhas. by destruct (cloneMap_entries (σ l) key) as [-> _].
Qed.

Lemma X1_cloneMap_equal_witness :
  _equalMaps (M := ShimStringMap) None exampleCloneStore (RObject 1%nat) (RObject 0%nat) None
  = true.
Proof.
  refine (proj2 (X1_cloneMap_equal (M := ShimStringMap) None _) exampleCloneStore 0%nat 1%nat _ _).
  - intros ff Hff. discriminate Hff.
  - reflexivity.
  - intros key. cbn. unfold ShimStringMap_has, ShimStringMap_get. cbn.
    rewrite !Dict_in_insert, !Dict_get_insert.
    destruct (decide ("b" = key)); [done|].
    destruct (decide ("a" = key)); [done|].
    rewrite createDictionaryModeObject_empty, Dict_in_empty. done.
Defined.

(** X2. After [copyMapPropertiesFromTo(source, target)] the target has the
    keys of both maps; a key of the source has the value of the source,
    any other key keeps the value it had in the target. *)
Theorem X2_copyMapPropertiesFromTo_merge {M : Type} `{StringMapLaws M}
    (source target : M) (key : string) :
  sm_has (copyMapPropertiesFromTo source target) key = sm_has source key || sm_has target key
  ∧ sm_get (copyMapPropertiesFromTo source target) key
    = if sm_has source key then sm_get source key else sm_get target key.
Proof. apply copyMapPropertiesFromTo_entries. Qed.

Lemma X2_copyMapPropertiesFromTo_merge_witness :
  sm_get (copyMapPropertiesFromTo exampleShimMap (ShimStringMap_set "a" VNull ShimStringMap_new)) "a"
  = VNumber (Integer 1).
Proof.
  etrans; [apply (X2_copyMapPropertiesFromTo_merge (M := ShimStringMap))|].
  vm_compute. reflexivity.
Defined.

(** X3. [arrayToMap] has a key exactly when some element of the array
    makes that key, and the value under the key comes from the last such
    element. *)
Theorem X3_arrayToMap_last_wins {M : Type} `{StringMapLaws M}
    (array : list Value) (makeKey : Value → string) (makeValue : option (Value → Value))
    (key : string) :
  (sm_has (arrayToMap array makeKey makeValue : M) key = true
   ↔ ∃ value, value ∈ array ∧ makeKey value = key)
  ∧ (∀ before value after,
       array = before ++ value :: after →
       makeKey value = key →
       (∀ later, later ∈ after → makeKey later ≠ key) →
       sm_get (arrayToMap array makeKey makeValue : M) key = default id makeValue value).
Proof.
  assert (Hloop : ∀ (l : list Value) (result : M),
            foldl (λ result value,
                     sm_set (makeKey value)
                            (match makeValue with
                             | Some makeValue => makeValue value
                             | None => value
                             end) result) result l
            = foldl (λ result value, sm_set (makeKey value) (default id makeValue value) result)
                    result l).
  { intros l. induction l as [|x l IH]; intros result; cbn; [done|].
    rewrite IH. by destruct makeValue. }
  unfold arrayToMap. rewrite Hloop. split.
  - destruct (arrayToMap_loop array makeKey (default id makeValue) (sm_new : M) key)
      as [Hhas _].
    cbn in Hhas. rewrite Hhas, sm_has_new. split; [|by left].
    intros [?|?]; done.
  - intros before value after -> Hkey Hlater. rewrite foldl_app. cbn.
    destruct (arrayToMap_loop after makeKey (default id makeValue)
                (sm_set (makeKey value) (default id makeValue value)
                   (foldl (λ result value,
                             sm_set (makeKey value) (default id makeValue value) result)
                          sm_new before)) key) as [_ Hget].
    cbn in Hget. rewrite Hget by done.
    rewrite sm_get_set. by rewrite decide_True.
Qed.

Lemma X3_arrayToMap_last_wins_witness :
  sm_get (arrayToMap (M := ShimStringMap)
            [VString "x"; VNumber (Integer 7); VString "x"]
            (λ value, typeof value) (Some (λ value, VBoolean true))) "number"
  = VBoolean true.
Proof.
  refine (proj2 (X3_arrayToMap_last_wins (M := ShimStringMap) _ _ _ "number")
            [VString "x"] (VNumber (Integer 7)) [VString "x"] _ _ _).
  - reflexivity.
  - reflexivity.
  - intros later Hin. apply list_elem_of_singleton in Hin as ->. vm_compute. discriminate.
Defined.

(** X4. [_getOrUpdate] returns the value that the map has under the key
    afterwards.  When the map already has the key, the map is unchanged
    and [getValue] is not called; otherwise the value is the one that
    [getValue] computes.  A second call returns the same value without
    calling [getValue]. *)
Theorem X4_getOrUpdate {M : Type} `{StringMapLaws M} {S : Type}
    (map : M) (key : string) (getValue : string → S → Value * S) (s : S) :
  let '(value, map', s') := _getOrUpdate map key getValue s in
  sm_has map' key = true
  ∧ sm_get map' key = value
  ∧ _getOrUpdate map' key getValue s' = (value, map', s')
  ∧ (sm_has map key = true → value = sm_get map key ∧ map' = map ∧ s' = s)
  ∧ (sm_has map key = false → (value, s') = getValue key s ∧ map' = sm_set key value map).
Proof.
  unfold _getOrUpdate. destruct (sm_has map key) eqn:Hhas.
  - rewrite Hhas. done.
  - destruct (getValue key s) as [value s'] eqn:Hvalue. cbn.
    rewrite !sm_has_set, !sm_get_set. destruct (decide (key = key)); [|done].
    repeat split; done.
Qed.

Lemma X4_getOrUpdate_witness :
  _getOrUpdate exampleShimMap "a" countingGetValue 0%nat
  = (VNumber (Integer 1), exampleShimMap, 0%nat).
Proof.
  pose proof (X4_getOrUpdate exampleShimMap "a" countingGetValue 0%nat) as Hspec.
  destruct (_getOrUpdate exampleShimMap "a" countingGetValue 0%nat) as [[value map'] s'].
  destruct Hspec as (_ & _ & _ & Hpresent & _).
  destruct Hpresent as (-> & -> & ->); [vm_compute; reflexivity|].
  vm_compute. reflexivity.
Defined.

(** X5. [_mapValuesMutate] keeps the keys of the map and replaces the
    value under each key by its image. *)
Theorem X5_mapValuesMutate {M : Type} `{StringMapLaws M}
    (map : M) (mapValue : Value → Value) (key : string) :
  sm_has (_mapValuesMutate map mapValue) key = sm_has map key
  ∧ sm_get (_mapValuesMutate map mapValue) key
    = if sm_has map key then mapValue (sm_get map key) else VUndefined.
Proof. apply _mapValuesMutate_entries. Qed.

Lemma X5_mapValuesMutate_witness :
  sm_get (_mapValuesMutate exampleShimMap (λ value, VString (typeof value))) "a"
  = VString "number".
Proof.
  etrans; [apply (X5_mapValuesMutate (M := ShimStringMap))|].
  vm_compute. reflexivity.
Defined.

(** ** Searching and walking maps *)

Lemma findInMap_loop_spec (iter : list (string * Value)) (f : Value → string → Value) :
  (findInMap_loop iter f = VUndefined
   ↔ ∀ key value, (key, value) ∈ iter → f value key = VUndefined)
  ∧ (findInMap_loop iter f ≠ VUndefined →
     ∃ key value, (key, value) ∈ iter ∧ f value key = findInMap_loop iter f).
Proof.
  induction iter as [|[k v] iter [IHundef IHdef]]; cbn.
  - split; [|done]. split; [|done]. intros _ key value Hin. by apply elem_of_nil in Hin.
  - destruct (strictEquals (f v k) VUndefined) eqn:Hresult; cbn.
    + apply strictEquals_undefined in Hresult. split.
      * rewrite IHundef. split.
        -- intros Hall key value [[= -> ->]|Hin]%elem_of_cons; [done|by apply Hall].
        -- intros Hall key value Hin. by apply Hall, list_elem_of_further.
      * intros (key & value & Hin & Heq)%IHdef.
        exists key, value. split; [by apply list_elem_of_further|done].
    + assert (f v k ≠ VUndefined) as Hne.
      { intros Heq%strictEquals_undefined. congruence. }
      split.
      * split; [done|]. intros Hall. exfalso. apply Hne, Hall, list_elem_of_here.
      * intros _. exists k, v. split; [apply list_elem_of_here|done].
Qed.

Lemma forEachKeyInMap_loop_foldl {S : Type} (iter : list string) (f : string → S → S) (s : S) :
  forEachKeyInMap_loop iter f s = foldl (λ s key, f key s) s iter.
Proof. revert s. induction iter as [|key iter IH]; intros s; cbn; [done|apply IH]. Qed.

Lemma foldl_fmap_fst {S : Type} (entries : list (string * Value)) (f : string → S → S) (s : S) :
  foldl (λ s key, f key s) s entries.*1 = foldl (λ s kv, f kv.1 s) s entries.
Proof. revert s. induction entries as [|[k v] entries IH]; intros s; cbn; [done|apply IH]. Qed.

(** The iterator loop with an effectful predicate stops after the first
    entry on which the predicate returns true. *)
Lemma someInIterator_effect_run {S : Type} (entries : list (string * Value))
    (action : string → Value → S → bool * S) (s : S) :
  (someInIterator_effect entries (λ '(key, value), action key value) s).2
  = runUntilTrue entries action s.
Proof.
  revert s. induction entries as [|[key value] entries IH]; intros s; cbn; [done|].
  destruct (action key value s) as [[] s']; [done|apply IH].
Qed.

(** So does the [forEach] loop that keeps [found]. *)
Lemma foldl_found_effect_run {S : Type} (entries : list (string * Value))
    (action : string → Value → S → bool * S) (found : bool) (s : S) :
  (foldl (λ (state : bool * S) kv,
            let '(found, s) := state in
            if found then (found, s) else action kv.1 kv.2 s)
         (found, s) entries).2
  = if found then s else runUntilTrue entries action s.
Proof.
  revert found s. induction entries as [|[key value] entries IH]; intros found s; cbn.
  - by destruct found.
  - destruct found; [by rewrite IH|].
    destruct (action key value s) as [result s']. by rewrite IH.
Qed.

Lemma _eachAndBreakIfReturningTrue_earlier_loop_foldl {S : Type}
    (entries : list (string * Value)) (f : string → Value → S → bool * S) (s : S) :
  _eachAndBreakIfReturningTrue_earlier_loop entries f s
  = foldl (λ s kv, (f kv.1 kv.2 s).2) s entries.
Proof.
  revert s. induction entries as [|[key value] entries IH]; intros s; cbn; [done|apply IH].
Qed.

Section WalkSpec.
Context {M : Type} `{StringMapLaws M}.
Variable fullyFeaturedMaps : option (FullyFeaturedMap M).
Hypothesis fullyFeaturedMaps_laws :
  ∀ ff, fullyFeaturedMaps = Some ff → FullyFeaturedMapLaws M ff.

Lemma findInMap_enumerate (map : M) f :
  findInMap fullyFeaturedMaps map f = findInMap_loop (sm_enumerate map) f.
Proof.
  destruct fullyFeaturedMaps as [ff|] eqn:Hff.
  - pose proof (fullyFeaturedMaps_laws ff eq_refl) as Hlaws.
    unfold findInMap. by rewrite sm_entries_enumerate.
  - unfold findInMap. rewrite sm_forEach_fold. by rewrite foldl_result.
Qed.

Lemma someValueInMap_enumerate (map : M) predicate :
  someValueInMap fullyFeaturedMaps map predicate
  = someInIterator (sm_enumerate map) (λ kv, predicate kv.2).
Proof.
  destruct fullyFeaturedMaps as [ff|] eqn:Hff.
  - pose proof (fullyFeaturedMaps_laws ff eq_refl) as Hlaws.
    unfold someValueInMap. rewrite sm_values_enumerate. apply someInIterator_fmap.
  - unfold someValueInMap, someInMap. rewrite sm_forEach_fold.
    by rewrite (foldl_found _ (λ kv, predicate kv.2)).
Qed.

Lemma forEachKeyInMap_enumerate {S : Type} (map : M) (action : string → S → S) (s : S) :
  forEachKeyInMap fullyFeaturedMaps map action s
  = foldl (λ s key, action key s) s (sm_enumerate map).*1.
Proof.
  rewrite foldl_fmap_fst.
  destruct fullyFeaturedMaps as [ff|] eqn:Hff.
  - pose proof (fullyFeaturedMaps_laws ff eq_refl) as Hlaws.
    unfold forEachKeyInMap.
    by rewrite sm_keys_enumerate, forEachKeyInMap_loop_foldl, foldl_fmap_fst.
  - unfold forEachKeyInMap. by rewrite sm_forEach_fold.
Qed.

Lemma _ownKeys_enumerate (map : M) :
  _ownKeys fullyFeaturedMaps map = (sm_enumerate map).*1.
Proof.
  unfold _ownKeys. rewrite forEachKeyInMap_enumerate. apply (foldl_collect _ []).
Qed.

Lemma _eachAndBreakIfReturningTrue_run {S : Type} (map : M)
    (action : string → Value → S → bool * S) (s : S) :
  _eachAndBreakIfReturningTrue fullyFeaturedMaps map action s
  = runUntilTrue (sm_enumerate map) action s.
Proof.
  destruct fullyFeaturedMaps as [ff|] eqn:Hff.
  - pose proof (fullyFeaturedMaps_laws ff eq_refl) as Hlaws.
    unfold _eachAndBreakIfReturningTrue. rewrite sm_entries_enumerate.
    apply someInIterator_effect_run.
  - unfold _eachAndBreakIfReturningTrue. rewrite sm_forEach_fold.
    apply (foldl_found_effect_run _ action false).
Qed.
End WalkSpec.

(** X6. [findInMap] returns [undefined] exactly when [f] is [undefined]
    on every entry of the map; any other result is the result of [f] on
    an entry of the map. *)
Theorem X6_findInMap_result {M : Type} `{StringMapLaws M}
    (fullyFeaturedMaps : option (FullyFeaturedMap M))
    (fullyFeaturedMaps_laws : ∀ ff, fullyFeaturedMaps = Some ff → FullyFeaturedMapLaws M ff)
    (map : M) (f : Value → string → Value) :
  (findInMap fullyFeaturedMaps map f = VUndefined
   ↔ ∀ key, sm_has map key = true → f (sm_get map key) key = VUndefined)
  ∧ (findInMap fullyFeaturedMaps map f ≠ VUndefined →
     ∃ key, sm_has map key = true
            ∧ f (sm_get map key) key = findInMap fullyFeaturedMaps map f).
Proof.
  rewrite (findInMap_enumerate _ fullyFeaturedMaps_laws).
  destruct (findInMap_loop_spec (sm_enumerate map) f) as [Hundef Hdef]. split.
  - rewrite Hundef. split.
    + intros Hall key Hhas. apply Hall. by apply sm_enumerate_spec.
    + intros Hall key value [Hhas <-]%sm_enumerate_spec. by apply Hall.
  - intros (key & value & [Hhas <-]%sm_enumerate_spec & Heq)%Hdef. eauto.
Qed.

Lemma X6_findInMap_result_witness :
  findInMap (M := ShimStringMap) None exampleShimMap (λ value key, VUndefined) = VUndefined.
Proof.
  apply (proj1 (X6_findInMap_result (M := ShimStringMap) None
                  (λ ff Hff, ltac:(discriminate Hff)) exampleShimMap _)).
  intros key Hhas. reflexivity.
Defined.

(** X7. [someInMap], [someKeyInMap] and [someValueInMap] return true
    exactly when the map has a key whose entry, key or value satisfies the
    predicate. *)
Theorem X7_some_exists {M : Type} `{StringMapLaws M}
    (fullyFeaturedMaps : option (FullyFeaturedMap M))
    (fullyFeaturedMaps_laws : ∀ ff, fullyFeaturedMaps = Some ff → FullyFeaturedMapLaws M ff)
    (map : M) :
  (∀ predicate,
     someInMap fullyFeaturedMaps map predicate = true
     ↔ ∃ key, sm_has map key = true ∧ predicate key (sm_get map key) = true)
  ∧ (∀ predicate,
       someKeyInMap fullyFeaturedMaps map predicate = true
       ↔ ∃ key, sm_has map key = true ∧ predicate key = true)
  ∧ (∀ predicate,
       someValueInMap fullyFeaturedMaps map predicate = true
       ↔ ∃ key, sm_has map key = true ∧ predicate (sm_get map key) = true).
Proof.
  split; [|split]; intros predicate.
  - by apply someInMap_spec.
  - by apply someKeyInMap_spec.
  - rewrite (someValueInMap_enumerate _ fullyFeaturedMaps_laws), someInIterator_exists.
    split.
    + intros ([key value] & [Hhas <-]%sm_enumerate_spec & Hp). eauto.
    + intros (key & Hhas & Hp). exists (key, sm_get map key).
      split; [by apply sm_enumerate_spec|done].
Qed.

Lemma X7_some_exists_witness :
  someValueInMap (M := ShimStringMap) None exampleShimMap
    (λ value, bool_decide (value = VNumber (Integer 2))) = true.
Proof.
  apply (proj2 (proj2 (X7_some_exists (M := ShimStringMap) None
                         (λ ff Hff, ltac:(discriminate Hff)) exampleShimMap))).
  exists "b". split; vm_compute; reflexivity.
Defined.

(** X8. [mapIsEmpty] is true exactly when the map has no key; it is true
    of a new map and false after a [set]. *)
Theorem X8_mapIsEmpty {M : Type} `{StringMapLaws M}
    (fullyFeaturedMaps : option (FullyFeaturedMap M))
    (fullyFeaturedMaps_laws : ∀ ff, fullyFeaturedMaps = Some ff → FullyFeaturedMapLaws M ff) :
  (∀ map : M, mapIsEmpty fullyFeaturedMaps map = true ↔ ∀ key, sm_has map key = false)
  ∧ mapIsEmpty fullyFeaturedMaps (sm_new : M) = true
  ∧ (∀ (map : M) key value, mapIsEmpty fullyFeaturedMaps (sm_set key value map) = false).
Proof.
  assert (Hiff : ∀ map : M, mapIsEmpty fullyFeaturedMaps map = true
                            ↔ ∀ key, sm_has map key = false).
  { intros map. unfold mapIsEmpty.
    rewrite negb_true_iff, <- not_true_iff_false,
      (someKeyInMap_spec _ fullyFeaturedMaps_laws).
    split.
    - intros Hnone key. destruct (sm_has map key) eqn:Hhas; [|done].
      exfalso. apply Hnone. eauto.
    - intros Hall (key & Hhas & _). rewrite Hall in Hhas. done. }
  split; [done|]. split.
  - apply Hiff. apply sm_has_new.
  - intros map key value. apply not_true_iff_false. rewrite Hiff.
    intros Hall. specialize (Hall key). rewrite sm_has_set, decide_True in Hall; done.
Qed.

Lemma X8_mapIsEmpty_witness :
  mapIsEmpty (M := ShimStringMap) None (ShimStringMap_clear exampleShimMap) = true.
Proof.
  apply (proj1 (X8_mapIsEmpty (M := ShimStringMap) None (λ ff Hff, ltac:(discriminate Hff)))).
  intros key. exact (sm_has_clear (M := ShimStringMap) exampleShimMap key).
Defined.

(** X9. [_ownKeys] lists the keys that the map has, each once, and
    [forEachKeyInMap] runs its action once on each of them, in that
    order. *)
Theorem X9_ownKeys_forEachKey {M : Type} `{StringMapLaws M}
    (fullyFeaturedMaps : option (FullyFeaturedMap M))
    (fullyFeaturedMaps_laws : ∀ ff, fullyFeaturedMaps = Some ff → FullyFeaturedMapLaws M ff)
    (map : M) :
  NoDup (_ownKeys fullyFeaturedMaps map)
  ∧ (∀ key, key ∈ _ownKeys fullyFeaturedMaps map ↔ sm_has map key = true)
  ∧ (∀ (S : Type) (action : string → S → S) (s : S),
       forEachKeyInMap fullyFeaturedMaps map action s
       = foldl (λ s key, action key s) s (_ownKeys fullyFeaturedMaps map)).
Proof.
  rewrite (_ownKeys_enumerate _ fullyFeaturedMaps_laws). split; [|split].
  - apply sm_enumerate_NoDup.
  - intros key. rewrite list_elem_of_fmap. split.
    + intros ([k v] & -> & [Hhas _]%sm_enumerate_spec). done.
    + intros Hhas. exists (key, sm_get map key). split; [done|].
      by apply sm_enumerate_spec.
  - intros S action s. by apply forEachKeyInMap_enumerate.
Qed.

Lemma X9_ownKeys_forEachKey_witness :
  "a" ∈ _ownKeys (Some NativeMap_FullyFeaturedMap) exampleNativeMap.
Proof.
  apply (proj1 (proj2 (X9_ownKeys_forEachKey (Some NativeMap_FullyFeaturedMap)
                         (λ ff Hff, ltac:(injection Hff as <-; apply _)) exampleNativeMap))).
  vm_compute. reflexivity.
Defined.

(** X10. [_eachAndBreakIfReturningTrue] runs the action on the entries in
    the order of [forEach], up to and including the first one on which it
    returns true, and on no entry after it, whichever strategy is used. *)
Theorem X10_eachAndBreak_stops {M : Type} `{StringMapLaws M}
    (fullyFeaturedMaps : option (FullyFeaturedMap M))
    (fullyFeaturedMaps_laws : ∀ ff, fullyFeaturedMaps = Some ff → FullyFeaturedMapLaws M ff)
    {S : Type} (map : M) (action : string → Value → S → bool * S) (s : S) :
  _eachAndBreakIfReturningTrue fullyFeaturedMaps map action s
  = runUntilTrue (sm_enumerate map) action s.
Proof. by apply _eachAndBreakIfReturningTrue_run. Qed.

Lemma X10_eachAndBreak_stops_witness :
  _eachAndBreakIfReturningTrue (Some NativeMap_FullyFeaturedMap) exampleNativeMap
    logKeyAndBreak []
  = ["a"].
Proof.
  etrans.
  - apply (X10_eachAndBreak_stops (Some NativeMap_FullyFeaturedMap)).
    intros ff Hff. injection Hff as <-. apply _.
  - vm_compute. reflexivity.
Defined.

(** X11. In the module's other revision, the iterator branch of
    [_eachAndBreakIfReturningTrue] runs the action on every entry,
    whatever it returns, while the [forEach] branch runs it on no entry
    after the first one on which it returns true. *)
Theorem X11_eachAndBreak_earlier {M : Type} `{StringMapLaws M}
    (ff : FullyFeaturedMap M) `{!FullyFeaturedMapLaws M ff}
    {S : Type} (map : M) (f : string → Value → S → bool * S) (s : S) :
  _eachAndBreakIfReturningTrue_earlier (Some ff) map f s
  = foldl (λ s kv, (f kv.1 kv.2 s).2) s (sm_enumerate map)
  ∧ _eachAndBreakIfReturningTrue_earlier None map f s
    = runUntilTrue (sm_enumerate map) f s.
Proof.
  unfold _eachAndBreakIfReturningTrue_earlier. split.
  - rewrite sm_entries_enumerate. apply _eachAndBreakIfReturningTrue_earlier_loop_foldl.
  - rewrite sm_forEach_fold. apply (foldl_found_effect_run _ f false).
Qed.

Lemma X11_eachAndBreak_earlier_witness :
  _eachAndBreakIfReturningTrue_earlier (Some NativeMap_FullyFeaturedMap) exampleNativeMap
    logKeyAndBreak []
  = ["a"; "b"]
  ∧ _eachAndBreakIfReturningTrue_earlier None exampleNativeMap logKeyAndBreak [] = ["a"].
Proof.
  destruct (X11_eachAndBreak_earlier NativeMap_FullyFeaturedMap exampleNativeMap
              logKeyAndBreak []) as [-> ->].
  split; vm_compute; reflexivity.
Defined.

(** ** The fallback number map and the fallback sets *)

Lemma Number_toString_eq (key key' : Z) :
  Number_toString key = Number_toString key' ↔ key = key'.
Proof.
  unfold Number_toString. split; [|by intros ->]. apply (inj pretty).
Qed.

Lemma decide_Number_toString {A : Type} (key key' : Z) (x y : A) :
  (if decide (Number_toString key = Number_toString key') then x else y)
  = if decide (key = key') then x else y.
Proof.
  destruct (decide (key = key')) as [->|Hne].
  - by rewrite decide_True.
  - rewrite decide_False; [done|]. by rewrite Number_toString_eq.
Qed.

(** X12. In the fallback number map distinct integer keys never share an
    entry: [set] and [delete] on one key change what [has] and [get]
    report for that key only. *)
Theorem X12_ShimNumberMap_keys_independent :
  ∀ (this : ShimNumberMap) (key key' : Z) (value : Value),
    ShimNumberMap_has (ShimNumberMap_set key value this) key'
    = (if decide (key = key') then true else ShimNumberMap_has this key')
    ∧ ShimNumberMap_get (ShimNumberMap_set key value this) key'
      = (if decide (key = key') then value else ShimNumberMap_get this key')
    ∧ ShimNumberMap_has (ShimNumberMap_delete key this) key'
      = (if decide (key = key') then false else ShimNumberMap_has this key')
    ∧ ShimNumberMap_get (ShimNumberMap_delete key this) key'
      = (if decide (key = key') then VUndefined else ShimNumberMap_get this key').
Proof.
  intros this key key' value.
  unfold ShimNumberMap_has, ShimNumberMap_get, ShimNumberMap_set, ShimNumberMap_delete. cbn.
  rewrite Dict_in_insert, Dict_get_insert, Dict_in_delete, Dict_get_delete.
  by rewrite !decide_Number_toString.
Qed.

(** The loop of the constructor of the number map, from any object. *)
Lemma ShimNumberMap_new_loop (pairs : list (Z * Value)) (data : Dict) (key : Z) :
  let final := foldl (λ data '(key, value), <[Number_toString key := value]> data) data pairs in
  (Dict_in (Number_toString key) final = true
   ↔ key ∈ pairs.*1 ∨ Dict_in (Number_toString key) data = true)
  ∧ ((key ∉ pairs.*1) →
     Dict_get final (Number_toString key) = Dict_get data (Number_toString key)).
Proof.
  revert data. induction pairs as [|[k v] pairs IH]; intros data; cbn.
  - split; [|done]. split; [by right|]. intros [Hin|?]; [|done]. by apply elem_of_nil in Hin.
  - destruct (IH (<[Number_toString k := v]> data)) as [IHhas IHget].
    cbn in IHhas, IHget. split.
    + rewrite IHhas, Dict_in_insert, decide_Number_toString. split.
      * intros [Hin|Hset]; [left; by apply list_elem_of_further|].
        destruct (decide (k = key)) as [->|]; [left; apply list_elem_of_here|by right].
      * intros [[->|Hin]%elem_of_cons|Hhas].
        -- right. by rewrite decide_True.
        -- by left.
        -- right. by destruct (decide (k = key)).
    + intros Hnotin. rewrite IHget.
      * rewrite Dict_get_insert, decide_Number_toString, decide_False; [done|].
        intros ->. apply Hnotin, list_elem_of_here.
      * intros Hin. by apply Hnotin, list_elem_of_further.
Qed.

(** X13. A number map made from a list of pairs has the keys of the
    pairs, each with the value of the last pair that has the key; made
    without pairs, it has no key. *)
Theorem X13_ShimNumberMap_new_pairs :
  ∀ (pairs : list (Z * Value)) (key : Z),
    (ShimNumberMap_has (ShimNumberMap_new (Some pairs)) key = true ↔ key ∈ pairs.*1)
    ∧ (∀ before value after,
         pairs = before ++ (key, value) :: after → (key ∉ after.*1) →
         ShimNumberMap_get (ShimNumberMap_new (Some pairs)) key = value)
    ∧ ShimNumberMap_has (ShimNumberMap_new None) key = false.
Proof.
  intros pairs key. unfold ShimNumberMap_has, ShimNumberMap_get. cbn. split; [|split].
  - destruct (ShimNumberMap_new_loop pairs ∅ key) as [Hhas _]. cbn in Hhas.
    rewrite Hhas, Dict_in_empty. split; [|by left]. intros [?|?]; done.
  - intros before value after -> Hnotin. rewrite foldl_app. cbn.
    destruct (ShimNumberMap_new_loop after
                (<[Number_toString key := value]>
                   (foldl (λ data '(key, value), <[Number_toString key := value]> data)
                      ∅ before)) key) as [_ Hget].
    cbn in Hget. rewrite Hget by done.
    rewrite Dict_get_insert. by rewrite decide_True.
  - apply Dict_in_empty.
Qed.

Lemma X13_ShimNumberMap_new_pairs_witness :
  ShimNumberMap_get
    (ShimNumberMap_new (Some [(1, VString "a"); (2, VString "b"); (1, VString "c")])) 1
  = VString "c".
Proof.
  refine (proj1 (proj2 (X13_ShimNumberMap_new_pairs _ 1))
            [(1, VString "a"); (2, VString "b")] (VString "c") [] _ _).
  - reflexivity.
  - apply not_elem_of_nil.
Defined.

(** X14. After [clear()] the fallback string map has no key, [get]
    returns [undefined] for every key, and [forEach] runs its action on
    nothing. *)
Theorem X14_ShimStringMap_clear :
  ∀ (this : ShimStringMap) (key : string),
    ShimStringMap_has (ShimStringMap_clear this) key = false
    ∧ ShimStringMap_get (ShimStringMap_clear this) key = VUndefined
    ∧ ∀ (S : Type) (f : Value → string → S → S) (s : S),
        ShimStringMap_forEach f (ShimStringMap_clear this) s = s.
Proof.
  intros this key.
  unfold ShimStringMap_has, ShimStringMap_get, ShimStringMap_forEach, ShimStringMap_clear,
    Dict_forIn. cbn.
  rewrite createDictionaryModeObject_empty. split; [apply Dict_in_empty|]. split.
  - apply Dict_get_absent, Dict_in_empty.
  - intros S f s. by rewrite map_to_list_empty.
Qed.

(** X15. The fallback set without a size: [add] and [delete] change the
    membership of their argument only, a new set is empty, and [isEmpty]
    is true exactly when the set has no member. *)
Theorem X15_ShimStringSet_membership :
  ∀ (this : ShimStringSet) (value value' : string),
    ShimStringSet_has (ShimStringSet_add value this) value'
    = (if decide (value = value') then true else ShimStringSet_has this value')
    ∧ ShimStringSet_has (ShimStringSet_delete value this) value'
      = (if decide (value = value') then false else ShimStringSet_has this value')
    ∧ ShimStringSet_has ShimStringSet_new value = false
    ∧ (setIsEmpty this = true ↔ ∀ member, ShimStringSet_has this member = false).
Proof.
  intros this value value'.
  unfold ShimStringSet_has, ShimStringSet_add, ShimStringSet_delete. cbn.
  rewrite Dict_in_insert, Dict_in_delete, createDictionaryModeObject_empty.
  split; [done|]. split; [done|]. split; [apply Dict_in_empty|].
  unfold setIsEmpty, ShimStringSet_isEmpty, Dict_forIn.
  destruct (map_to_list (ShimStringSet_data this)) as [|[k v] entries] eqn:Hentries; cbn.
  - apply map_to_list_empty_iff in Hentries. rewrite Hentries.
    split; [|done]. intros _ member. apply Dict_in_empty.
  - split; [done|]. intros Hnone. specialize (Hnone k).
    apply Dict_in_false in Hnone.
    assert ((k, v) ∈ map_to_list (ShimStringSet_data this)) as Hin
      by (rewrite Hentries; apply list_elem_of_here).
    apply elem_of_map_to_list in Hin. congruence.
Qed.

Lemma X15_ShimStringSet_membership_witness :
  setIsEmpty (ShimStringSet_delete "x" (ShimStringSet_add "x" ShimStringSet_new)) = true.
Proof.
  apply (proj2 (proj2 (proj2 (X15_ShimStringSet_membership _ "x" "x")))).
  intros member. vm_compute. reflexivity.
Defined.

Lemma ShimSet_inv_size (this : ShimSet) :
  ShimSet_inv this ↔ ShimSet_size this = Z.of_nat (size (ShimSet_data this)).
Proof. unfold ShimSet_inv. by rewrite ShimSet_members_length. Qed.

Lemma ShimSet_new_inv : ShimSet_inv ShimSet_new.
Proof.
  apply ShimSet_inv_size. cbn. by rewrite createDictionaryModeObject_empty, map_size_empty.
Qed.

Lemma ShimSet_add_inv (value : string) (this : ShimSet) :
  ShimSet_inv this → ShimSet_inv (ShimSet_add value this).
Proof.
  rewrite !ShimSet_inv_size. intros Hinv. unfold ShimSet_add.
  destruct (ShimSet_has this value) eqn:Hhas; cbn; [done|].
  apply Dict_in_false in Hhas. rewrite map_size_insert_None by done. lia.
Qed.

Lemma ShimSet_delete_inv (value : string) (this : ShimSet) :
  ShimSet_inv this → ShimSet_inv (ShimSet_delete value this).
Proof.
  rewrite !ShimSet_inv_size. intros Hinv. unfold ShimSet_delete.
  destruct (ShimSet_has this value) eqn:Hhas; cbn; [|done].
  apply Dict_in_true in Hhas. rewrite map_size_delete_Some by done.
  assert (size (ShimSet_data this) ≠ O) as Hsize.
  { intros Hempty%map_size_empty_iff. rewrite Hempty, lookup_empty in Hhas.
    by destruct Hhas. }
  lia.
Qed.

Lemma ShimSet_add_has (value value' : string) (this : ShimSet) :
  ShimSet_has (ShimSet_add value this) value'
  = if decide (value = value') then true else ShimSet_has this value'.
Proof.
  unfold ShimSet_add. destruct (ShimSet_has this value) eqn:Hhas; cbn.
  - destruct (decide (value = value')) as [<-|]; done.
  - unfold ShimSet_has. cbn. apply Dict_in_insert.
Qed.

(** X16. Every set with a size that is built from a new one by [add] and
    [delete] keeps its [size] equal to the number of its members, and
    [_setIsEmpty], which tests [size], is true of it exactly when it has
    no member. *)
Theorem X16_ShimSet_reachable_isEmpty :
  ∀ this : ShimSet,
    ShimSet_reachable this →
    ShimSet_inv this
    ∧ (_setIsEmpty this = true ↔ ∀ value, ShimSet_has this value = false).
Proof.
  intros this Hreach.
  assert (Hinv : ShimSet_inv this).
  { induction Hreach; [apply ShimSet_new_inv|by apply ShimSet_add_inv
                      |by apply ShimSet_delete_inv]. }
  split; [done|]. apply ShimSet_inv_size in Hinv.
  unfold _setIsEmpty. rewrite Z.eqb_eq, Hinv. split.
  - intros Hzero value. apply Dict_in_false.
    assert (size (ShimSet_data this) = O) as Hempty%map_size_empty_iff by lia.
    rewrite Hempty. apply lookup_empty.
  - intros Hnone.
    assert (ShimSet_data this = ∅) as ->; [|by rewrite map_size_empty].
    apply map_empty. intros value. by apply Dict_in_false, Hnone.
Qed.

Lemma X16_ShimSet_reachable_isEmpty_witness :
  _setIsEmpty (ShimSet_delete "x" (ShimSet_add "x" ShimSet_new)) = true.
Proof.
  apply (proj2 (X16_ShimSet_reachable_isEmpty _
                  (ShimSet_reachable_delete "x" _
                     (ShimSet_reachable_add "x" _ ShimSet_reachable_new)))).
  intros value. vm_compute. reflexivity.
Defined.

Lemma copySetValuesFromTo_loop (values : list string) (target : ShimStringSet) (value : string) :
  ShimStringSet_has
    (foldl (λ target value, ShimStringSet_add value target) target values) value
  = bool_decide (value ∈ values) || ShimStringSet_has target value.
Proof.
  revert target. induction values as [|v values IH]; intros target; cbn.
  - by rewrite bool_decide_eq_false_2 by apply not_elem_of_nil.
  - rewrite IH. unfold ShimStringSet_has, ShimStringSet_add. cbn. rewrite Dict_in_insert.
    destruct (decide (v = value)) as [->|Hne].
    + rewrite (bool_decide_eq_true_2 (value ∈ value :: values)) by apply list_elem_of_here.
      by rewrite orb_true_r.
    + f_equal. apply bool_decide_ext. rewrite elem_of_cons. intuition congruence.
Qed.

Lemma copySetValuesFromTo_sized_loop (values : list string) (target : ShimSet) (value : string) :
  let result := foldl (λ target value, ShimSet_add value target) target values in
  ShimSet_has result value = bool_decide (value ∈ values) || ShimSet_has target value
  ∧ (ShimSet_inv target → ShimSet_inv result).
Proof.
  revert target. induction values as [|v values IH]; intros target; cbn.
  - by rewrite bool_decide_eq_false_2 by apply not_elem_of_nil.
  - destruct (IH (ShimSet_add v target)) as [IHhas IHinv]. cbn in IHhas, IHinv. split.
    + rewrite IHhas, ShimSet_add_has.
      destruct (decide (v = value)) as [->|Hne].
      * rewrite (bool_decide_eq_true_2 (value ∈ value :: values)) by apply list_elem_of_here.
        by rewrite orb_true_r.
      * f_equal. apply bool_decide_ext. rewrite elem_of_cons. intuition congruence.
    + intros Hinv. by apply IHinv, ShimSet_add_inv.
Qed.

Lemma Dict_forIn_elem_of (obj : Dict) (key : string) :
  bool_decide (key ∈ Dict_forIn obj) = Dict_in key obj.
Proof.
  apply bool_decide_ext. unfold Dict_forIn. rewrite list_elem_of_fmap. split.
  - intros ([k v] & -> & Hin%elem_of_map_to_list). by exists v.
  - intros [v Hv]. exists (key, v). split; [done|]. by apply elem_of_map_to_list.
Qed.

(** X17. After [copySetValuesFromTo(source, target)] the target has the
    members of both sets and no other, for the set without a size and for
    the set with a size, which also keeps its [size] equal to the number
    of its members. *)
Theorem X17_copySetValuesFromTo_union :
  (∀ (source target : ShimStringSet) (value : string),
     ShimStringSet_has (copySetValuesFromTo source target) value
     = ShimStringSet_has source value || ShimStringSet_has target value)
  ∧ (∀ (source target : ShimSet) (value : string),
       ShimSet_has (copySetValuesFromTo_sized source target) value
       = ShimSet_has source value || ShimSet_has target value)
  ∧ (∀ source target : ShimSet,
       ShimSet_inv target → ShimSet_inv (copySetValuesFromTo_sized source target)).
Proof.
  split; [|split].
  - intros source target value. unfold copySetValuesFromTo, ShimStringSet_forEach.
    rewrite copySetValuesFromTo_loop. by rewrite Dict_forIn_elem_of.
  - intros source target value. unfold copySetValuesFromTo_sized, ShimSet_forEach.
    destruct (copySetValuesFromTo_sized_loop (Dict_forIn (ShimSet_data source)) target value)
      as [Hhas _].
    cbn in Hhas. rewrite Hhas. by rewrite Dict_forIn_elem_of.
  - intros source target. unfold copySetValuesFromTo_sized, ShimSet_forEach.
    apply (copySetValuesFromTo_sized_loop (Dict_forIn (ShimSet_data source)) target "").
Qed.

Lemma X17_copySetValuesFromTo_union_witness :
  ShimSet_inv (copySetValuesFromTo_sized exampleShimSet (ShimSet_add "x" ShimSet_new)).
Proof.
  apply (proj2 (proj2 X17_copySetValuesFromTo_union)).
  vm_compute. reflexivity.
Defined.

(** ** Records: own fields only *)

Lemma foldl_guard_true {A B : Type} (guard : B → bool) (g : B → A → A) (l : list B) (acc : A) :
  (∀ x, x ∈ l → guard x = true) →
  foldl (λ acc x, if guard x then g x acc else acc) acc l = foldl (λ acc x, g x acc) acc l.
Proof.
  revert acc. induction l as [|x l IH]; intros acc Hall; cbn; [done|].
  rewrite (Hall x) by apply list_elem_of_here.
  apply IH. intros y Hy. by apply Hall, list_elem_of_further.
Qed.

Lemma foldl_guard_false {A B : Type} (guard : B → bool) (g : B → A → A) (l : list B) (acc : A) :
  (∀ x, x ∈ l → guard x = false) →
  foldl (λ acc x, if guard x then g x acc else acc) acc l = acc.
Proof.
  revert acc. induction l as [|x l IH]; intros acc Hall; cbn; [done|].
  rewrite (Hall x) by apply list_elem_of_here.
  apply IH. intros y Hy. by apply Hall, list_elem_of_further.
Qed.

(** A [for .. in] loop guarded by [hasOwnProperty] is a loop over the own
    keys. *)
Lemma foldl_forIn_own {A : Type} (object : MapLike) (g : string → A → A) (acc : A) :
  foldl (λ acc key, if hasOwnProperty_call object key then g key acc else acc)
        acc (MapLike_forIn object)
  = foldl (λ acc key, g key acc) acc (Dict_forIn (MapLike_own object)).
Proof.
  unfold MapLike_forIn. rewrite foldl_app. etrans.
  - apply foldl_guard_false. intros key [Hnone _]%list_elem_of_filter.
    apply bool_decide_eq_false. rewrite Hnone. by intros [? ?].
  - apply foldl_guard_true. intros key Hin. unfold hasOwnProperty_call.
    change (Dict_in key (MapLike_own object) = true).
    rewrite <- Dict_forIn_elem_of. by apply bool_decide_eq_true.
Qed.

Lemma getOwnKeys_own (map : MapLike) : getOwnKeys map = Dict_forIn (MapLike_own map).
Proof.
  unfold getOwnKeys.
  rewrite (foldl_forIn_own map (λ key keys, keys ++ [key])).
  apply (foldl_collect _ []).
Qed.

(** X18. [getOwnKeys] lists the own fields of a record, each once, and
    nothing that the record inherits; [getProperty] reads own fields only;
    [reduceOwnProperties] folds its callback over the own fields and their
    values. *)
Theorem X18_own_fields_only :
  ∀ map : MapLike,
    NoDup (getOwnKeys map)
    ∧ (∀ key, key ∈ getOwnKeys map ↔ hasProperty map key = true)
    ∧ (∀ key, getProperty map key = Dict_get (MapLike_own map) key)
    ∧ (∀ (U : Type) (callback : U → Value → string → U) (initial : U),
         reduceOwnProperties map callback initial
         = foldl (λ result key, callback result (getProperty map key) key)
                 initial (getOwnKeys map)).
Proof.
  intros map. rewrite getOwnKeys_own.
  assert (Hget : ∀ key, getProperty map key = Dict_get (MapLike_own map) key).
  { intros key. unfold getProperty, hasOwnProperty_call, MapLike_read, Dict_get.
    destruct (MapLike_own map !! key) eqn:Hown.
    - by rewrite bool_decide_eq_true_2 by eauto.
    - by rewrite bool_decide_eq_false_2 by (by intros [? ?]). }
  split; [apply NoDup_fst_map_to_list|]. split; [|split; [done|]].
  - intros key. unfold hasProperty, hasOwnProperty_call.
    rewrite <- (bool_decide_eq_true (key ∈ _)), Dict_forIn_elem_of. done.
  - intros U callback initial. unfold reduceOwnProperties.
    rewrite (foldl_forIn_own map
               (λ key result, callback result (MapLike_read map key) (String_of key))).
    generalize initial. unfold Dict_forIn.
    assert (Hown : ∀ key, key ∈ (map_to_list (MapLike_own map)).*1 →
                          MapLike_read map key = getProperty map key).
    { intros key ([k v] & -> & Hin%elem_of_map_to_list)%list_elem_of_fmap.
      rewrite Hget. unfold Dict_get. cbn. rewrite Hin. by apply MapLike_read_own. }
    induction ((map_to_list (MapLike_own map)).*1) as [|key keys IH]; intros result; cbn;
      [done|].
    rewrite Hown by apply list_elem_of_here.
    apply IH. intros k Hk. by apply Hown, list_elem_of_further.
Qed.

Lemma equalOwnProperties_left_spec (keys : list string) (left right : MapLike)
    (equalityComparer : option (Value → Value → bool)) :
  (equalOwnProperties_left keys left right equalityComparer = None
   ∨ equalOwnProperties_left keys left right equalityComparer = Some false)
  ∧ (equalOwnProperties_left keys left right equalityComparer = None
     ↔ ∀ key, key ∈ keys → hasOwnProperty_call left key = true →
              default strictEquals equalityComparer
                (MapLike_read left key) (MapLike_read right key) = true).
Proof.
  induction keys as [|key keys [IHcases IHnone]]; cbn.
  - split; [by left|]. split; [|done]. intros _ key Hin. by apply elem_of_nil in Hin.
  - destruct (hasOwnProperty_call left key) eqn:Hown.
    + destruct (default strictEquals equalityComparer
                  (MapLike_read left key) (MapLike_read right key)) eqn:Heq.
      * replace (match equalityComparer with
                 | Some equalityComparer =>
                     negb (equalityComparer (MapLike_read left key) (MapLike_read right key))
                 | None => negb (strictEquals (MapLike_read left key) (MapLike_read right key))
                 end) with false by (destruct equalityComparer; cbn in *; by rewrite Heq).
        split; [done|]. rewrite IHnone. split.
        -- intros Hall k [->|Hin]%elem_of_cons Hk; [done|by apply Hall].
        -- intros Hall k Hin. by apply Hall, list_elem_of_further.
      * replace (match equalityComparer with
                 | Some equalityComparer =>
                     negb (equalityComparer (MapLike_read left key) (MapLike_read right key))
                 | None => negb (strictEquals (MapLike_read left key) (MapLike_read right key))
                 end) with true by (destruct equalityComparer; cbn in *; by rewrite Heq).
        split; [by right|]. split; [done|]. intros Hall.
        specialize (Hall key (list_elem_of_here _ _) Hown). congruence.
    + split; [done|]. rewrite IHnone. split.
      * intros Hall k [->|Hin]%elem_of_cons Hk; [congruence|by apply Hall].
      * intros Hall k Hin. by apply Hall, list_elem_of_further.
Qed.

Lemma equalOwnProperties_right_spec (keys : list string) (left right : MapLike) :
  (equalOwnProperties_right keys left right = None
   ∨ equalOwnProperties_right keys left right = Some false)
  ∧ (equalOwnProperties_right keys left right = None
     ↔ ∀ key, key ∈ keys → hasOwnProperty_call right key = true →
              hasOwnProperty_call left key = true).
Proof.
  induction keys as [|key keys [IHcases IHnone]]; cbn.
  - split; [by left|]. split; [|done]. intros _ key Hin. by apply elem_of_nil in Hin.
  - destruct (hasOwnProperty_call right key) eqn:Hright.
    + destruct (hasOwnProperty_call left key) eqn:Hleft; cbn.
      * split; [done|]. rewrite IHnone. split.
        -- intros Hall k [->|Hin]%elem_of_cons Hk; [done|by apply Hall].
        -- intros Hall k Hin. by apply Hall, list_elem_of_further.
      * split; [by right|]. split; [done|]. intros Hall.
        specialize (Hall key (list_elem_of_here _ _) Hright). congruence.
    + split; [done|]. rewrite IHnone. split.
      * intros Hall k [->|Hin]%elem_of_cons Hk; [congruence|by apply Hall].
      * intros Hall k Hin. by apply Hall, list_elem_of_further.
Qed.

Lemma equalOwnProperties_objects :
  ∀ (σ : Store MapLike) (l r : loc) (equalityComparer : option (Value → Value → bool)),
    l ≠ r →
    equalOwnProperties σ (RObject l) (RObject r) equalityComparer = true
    ↔ (∀ key, hasOwnProperty_call (σ l) key = true →
              default strictEquals equalityComparer
                (MapLike_read (σ l) key) (MapLike_read (σ r) key) = true)
      ∧ (∀ key, hasOwnProperty_call (σ r) key = true →
                hasOwnProperty_call (σ l) key = true).
Proof.
  intros σ l r equalityComparer Hne. unfold equalOwnProperties.
  rewrite bool_decide_eq_false_2 by congruence. cbn [Ref_absent orb].
  destruct (equalOwnProperties_left_spec (MapLike_forIn (σ l)) (σ l) (σ r) equalityComparer)
    as [Hleft Hleft_none].
  destruct (equalOwnProperties_right_spec (MapLike_forIn (σ r)) (σ l) (σ r))
    as [Hright Hright_none].
  assert (Hl : equalOwnProperties_left (MapLike_forIn (σ l)) (σ l) (σ r) equalityComparer = None
               ↔ ∀ key, hasOwnProperty_call (σ l) key = true →
                        default strictEquals equalityComparer
                          (MapLike_read (σ l) key) (MapLike_read (σ r) key) = true).
  { rewrite Hleft_none. split; [|by auto].
    intros Hall key Hown. apply Hall; [|done].
    by apply MapLike_forIn_own, hasOwnProperty_call_true. }
  assert (Hr : equalOwnProperties_right (MapLike_forIn (σ r)) (σ l) (σ r) = None
               ↔ ∀ key, hasOwnProperty_call (σ r) key = true →
                        hasOwnProperty_call (σ l) key = true).
  { rewrite Hright_none. split; [|by auto].
    intros Hall key Hown. apply Hall; [|done].
    by apply MapLike_forIn_own, hasOwnProperty_call_true. }
  rewrite <- Hl, <- Hr.
  destruct Hleft as [->| ->]; [|split; [done|by intros [? _]]].
  destruct Hright as [->| ->]; [done|]. split; [done|by intros [_ ?]].
Qed.

(** X19. What [equalOwnProperties] computes on two distinct records: it
    is true exactly when, for every own field of [left], what [left] and
    [right] give when read at that key are equal (the read of [right]
    going through what it inherits, and giving [undefined] when it finds
    nothing), and every own field of [right] is an own field of [left].
    It does not test that [right] owns the fields of [left]. *)
Theorem X19_equalOwnProperties_computes :
  ∀ (σ : Store MapLike) (l r : loc) (equalityComparer : option (Value → Value → bool)),
    l ≠ r →
    equalOwnProperties σ (RObject l) (RObject r) equalityComparer = true
    ↔ (∀ key, hasOwnProperty_call (σ l) key = true →
              default strictEquals equalityComparer
                (MapLike_read (σ l) key) (MapLike_read (σ r) key) = true)
      ∧ (∀ key, hasOwnProperty_call (σ r) key = true →
                hasOwnProperty_call (σ l) key = true).
Proof. apply equalOwnProperties_objects. Qed.

Lemma X19_equalOwnProperties_computes_witness :
  equalOwnProperties exampleRecordStore (RObject 0%nat) (RObject 1%nat) None = true.
Proof.
  apply (X19_equalOwnProperties_computes exampleRecordStore 0%nat 1%nat None); [done|].
  split.
  - intros key Hown. unfold hasOwnProperty_call in Hown. cbn in Hown.
    apply bool_decide_eq_true in Hown as [value Hown].
    apply lookup_insert_Some in Hown as [[<- <-]|[_ Hown]]; [vm_compute; reflexivity|].
    by rewrite lookup_empty in Hown.
  - intros key Hown. unfold hasOwnProperty_call in Hown. cbn in Hown.
    apply bool_decide_eq_true in Hown as [value Hown]. by rewrite lookup_empty in Hown.
Defined.

Lemma X18_own_fields_only_witness :
  "b" ∈ MapLike_forIn exampleInheritingRecord
  ∧ ¬ "b" ∈ getOwnKeys exampleInheritingRecord.
Proof.
  split.
  - vm_compute. apply list_elem_of_further, list_elem_of_here.
  - intros Hin.
    apply (proj1 (proj1 (proj2 (X18_own_fields_only exampleInheritingRecord)) "b")) in Hin.
    vm_compute in Hin. discriminate Hin.
Defined.

(** X20. The map made from a record by [mapOfMapLike] has exactly the own
    fields of the record, with their values: fields that the record
    inherits, enumerable or not, are left out. *)
Theorem X20_mapOfMapLike_own_fields {M : Type} `{StringMapLaws M}
    (object : MapLike) (key : string) :
  sm_has (mapOfMapLike object : M) key = hasProperty object key
  ∧ sm_get (mapOfMapLike object : M) key = getProperty object key.
Proof.
  destruct (mapOfMapLike_spec (M := M) object key) as [-> ->]. split; [done|].
  unfold getProperty, hasOwnProperty_call, MapLike_read, Dict_get.
  destruct (MapLike_own object !! key) eqn:Hown.
  - by rewrite bool_decide_eq_true_2 by eauto.
  - by rewrite bool_decide_eq_false_2 by (by intros [? ?]).
Qed.

Lemma X20_mapOfMapLike_own_fields_witness :
  sm_has (mapOfMapLike exampleInheritingRecord : ShimStringMap) "b" = false.
Proof.
  etrans; [apply (X20_mapOfMapLike_own_fields (M := ShimStringMap))|].
  vm_compute. reflexivity.
Defined.

(** ** Copies of records *)

Lemma foldl_write_own (entries : list (string * Value)) (result : MapLike) :
  "__proto__" ∉ entries.*1 →
  foldl (λ result kv, result ≫= ObjectLiteral_write kv.1 kv.2) (Some result) entries
  = Some {| MapLike_own := foldl (λ obj kv, <[kv.1 := kv.2]> obj) (MapLike_own result) entries;
            MapLike_inherited := MapLike_inherited result |}.
Proof.
  revert result. induction entries as [|[k v] entries IH]; intros result Hproto; cbn.
  - by destruct result.
  - unfold ObjectLiteral_write at 2. rewrite bool_decide_eq_false_2.
    + rewrite IH; [done|]. intros Hin. by apply Hproto, list_elem_of_further.
    + intros ->. apply Hproto, list_elem_of_here.
Qed.

Lemma foldl_read_own {A : Type} (object : MapLike) (g : string → Value → A → A)
    (l : list (string * Value)) (acc : A) :
  (∀ k v, (k, v) ∈ l → MapLike_own object !! k = Some v) →
  foldl (λ acc key, g key (MapLike_read object key) acc) acc l.*1
  = foldl (λ acc kv, g kv.1 kv.2 acc) acc l.
Proof.
  revert acc. induction l as [|[k v] l IH]; intros acc Hl; cbn; [done|].
  rewrite (MapLike_read_own object k v) by apply Hl, list_elem_of_here.
  apply IH. intros k' v' Hin. by apply Hl, list_elem_of_further.
Qed.

(** The copying loop of [clone] and [extend]: the own fields of [object]
    are added to those of [result], and win over them. *)
Lemma copyOwnProperties_union (object result : MapLike) :
  MapLike_own object !! "__proto__" = None →
  copyOwnProperties object (Some result)
  = Some {| MapLike_own := MapLike_own object ∪ MapLike_own result;
            MapLike_inherited := MapLike_inherited result |}.
Proof.
  intros Hproto. unfold copyOwnProperties.
  rewrite (foldl_forIn_own object
             (λ id result, result ≫= ObjectLiteral_write id (MapLike_read object id))).
  unfold Dict_forIn.
  rewrite (foldl_read_own object
             (λ id value result, result ≫= ObjectLiteral_write id value)).
  - rewrite foldl_write_own.
    + f_equal. f_equal. apply map_eq. intros key. rewrite lookup_union.
      destruct (foldl_assign_lookup (map_to_list (MapLike_own object)) (MapLike_own result) key
                  (NoDup_fst_map_to_list _)) as [(value & Hin & ->)|[Hnotin ->]].
      * apply elem_of_map_to_list in Hin. rewrite Hin. by destruct (MapLike_own result !! key).
      * destruct (MapLike_own object !! key) eqn:Hown.
        -- exfalso. apply Hnotin, list_elem_of_fmap. exists (key, v).
           split; [done|]. by apply elem_of_map_to_list.
        -- by destruct (MapLike_own result !! key).
    + intros ([k v] & Hk & Hin%elem_of_map_to_list)%list_elem_of_fmap.
      cbn in Hk. subst k. congruence.
  - intros k v Hin%elem_of_map_to_list. done.
Qed.

(** X21. On records that own no field named [__proto__]: [clone] gives a
    new object literal with the own fields of its argument, and [extend]
    one with the own fields of both arguments, a field of [first] winning
    over a field of [second] with the same name. *)
Theorem X21_clone_extend :
  (∀ object : MapLike,
     MapLike_own object !! "__proto__" = None →
     ∃ result, clone object = Some result
               ∧ MapLike_own result = MapLike_own object
               ∧ MapLike_inherited result = Object_prototype)
  ∧ (∀ first second : MapLike,
       MapLike_own first !! "__proto__" = None →
       MapLike_own second !! "__proto__" = None →
       ∃ result, extend first second = Some result
                 ∧ MapLike_own result = MapLike_own first ∪ MapLike_own second
                 ∧ ∀ key, hasProperty first key = true →
                          getProperty result key = getProperty first key).
Proof.
  split.
  - intros object Hproto. unfold clone. rewrite copyOwnProperties_union by done.
    eexists. split; [done|]. cbn. split; [|done]. apply (right_id_L ∅ (∪)).
  - intros first second Hfirst Hsecond. unfold extend.
    rewrite (copyOwnProperties_union second) by done.
    rewrite (copyOwnProperties_union first) by done.
    eexists. split; [done|]. cbn. rewrite (right_id_L ∅ (∪)). split; [done|].
    intros key [value Hown]%hasOwnProperty_call_true.
    unfold getProperty, hasOwnProperty_call, MapLike_read. cbn.
    rewrite lookup_union, Hown.
    destruct (MapLike_own second !! key); cbn;
      rewrite ?bool_decide_eq_true_2 by eauto; done.
Qed.

Lemma X21_clone_extend_witness :
  ∃ result, extend exampleInheritingRecord (exampleRecordStore 0%nat) = Some result
            ∧ getProperty result "a" = VNumber (Integer 1).
Proof.
  destruct (proj2 X21_clone_extend exampleInheritingRecord (exampleRecordStore 0%nat))
    as (result & Hextend & _ & Hfirst).
  - vm_compute. reflexivity.
  - vm_compute. reflexivity.
  - exists result. split; [exact Hextend|].
    rewrite Hfirst; vm_compute; reflexivity.
Defined.

(** ** Sorting, again *)

(** X22. [sortInV8ObjectInsertionOrder] returns a rearrangement of its
    input: no value is lost or repeated.  When no key looks like a natural
    the input is returned as it is. *)
Theorem X22_sortInV8ObjectInsertionOrder_permutation :
  ∀ (T : Type) (values : list T) (toKey : T → string),
    sortInV8ObjectInsertionOrder values toKey ≡ₚ values
    ∧ ((∀ value, value ∈ values → looksLikeNatural (toKey value) = false) →
       sortInV8ObjectInsertionOrder values toKey = values).
Proof.
  intros T values toKey. unfold sortInV8ObjectInsertionOrder.
  rewrite sortInV8ObjectInsertionOrder_partition. cbn. split.
  - rewrite Array_sort_Permutation.
    apply (filter_app_complement (λ value, looksLikeNatural (toKey value) = true)).
  - intros Hnone.
    assert (filter (λ value, looksLikeNatural (toKey value) = true) values = []) as ->.
    { induction values as [|x values IH]; [done|].
      rewrite filter_cons_False.
      - apply IH. intros value Hin. by apply Hnone, list_elem_of_further.
      - rewrite (Hnone x) by apply list_elem_of_here. done. }
    cbn. induction values as [|x values IH]; [done|].
    rewrite filter_cons_True.
    + f_equal. apply IH. intros value Hin. by apply Hnone, list_elem_of_further.
    + rewrite (Hnone x) by apply list_elem_of_here. done.
Qed.

Lemma X22_sortInV8ObjectInsertionOrder_permutation_witness :
  sortInV8ObjectInsertionOrder ["b"; "08"; "a"] id = ["b"; "08"; "a"].
Proof.
  apply (proj2 (X22_sortInV8ObjectInsertionOrder_permutation string ["b"; "08"; "a"] id)).
  intros value Hin.
  repeat (apply elem_of_cons in Hin as [->|Hin]; [vm_compute; reflexivity|]).
  by apply elem_of_nil in Hin.
Defined.

(** ** Multimaps, again *)

(** X23. [multiMapAdd] succeeds on every map whose keys hold arrays, and
    keeps it such a map; afterwards the key holds the array that the call
    returns, whose last element is the value added, and the other keys
    hold what they held. *)
Theorem X23_multiMapAdd_keeps_typing {M : Type} `{StringMapLaws M}
    (map : M) (key : string) (value : Value) (h : Heap) :
  MultiMap_typed map →
  ∃ l map' h',
    multiMapAdd map key value h = Ok (VObject l, map', h')
    ∧ sm_has map' key = true
    ∧ sm_get map' key = VObject l
    ∧ last (Heap_arrays h' l) = Some value
    ∧ MultiMap_typed map'
    ∧ ∀ key', key' ≠ key →
        sm_has map' key' = sm_has map key' ∧ sm_get map' key' = sm_get map key'.
Proof.
  intros Htyped. destruct (sm_has map key) eqn:Hhas.
  - destruct (Htyped key Hhas) as [l Hget].
    eexists l, map, _. split; [by apply multiMapAdd_present|].
    split; [done|]. split; [done|]. split; [|done].
    rewrite Heap_write_same. apply last_snoc.
  - eexists _, _, _. split; [by apply multiMapAdd_absent|].
    rewrite sm_has_set, sm_get_set. destruct (decide (key = key)); [|done].
    split; [done|]. split; [done|]. split; [|split].
    + cbn. by rewrite decide_True.
    + intros key' Hhas'. rewrite sm_has_set in Hhas'. rewrite sm_get_set.
      destruct (decide (key = key')); [by eauto|by apply Htyped].
    + intros key' Hne. rewrite sm_has_set, sm_get_set.
      by rewrite !decide_False by congruence.
Qed.

Lemma X23_multiMapAdd_keeps_typing_witness :
  ∃ l map' h',
    multiMapAdd exampleMultiMap "c" VNull exampleHeap = Ok (VObject l, map', h')
    ∧ sm_has map' "c" = true.
Proof.
  destruct (X23_multiMapAdd_keeps_typing exampleMultiMap "c" VNull exampleHeap
              exampleMultiMap_typed) as (l & map' & h' & Hadd & Hhas & _).
  exists l, map', h'. split; [exact Hadd|exact Hhas].
Defined.

(** X24. Adding a value that is identical to itself (any value but
    [NaN]) under a key that a map of arrays does not have, and removing
    it again, leaves a map without the key, in which the other keys hold
    what they held. *)
Theorem X24_multiMapAdd_then_remove {M : Type} `{StringMapLaws M}
    (map : M) (key : string) (value : Value) (h : Heap) :
  MultiMap_typed map →
  sm_has map key = false →
  value ≠ VNumber NaN →
  ∃ l map' h' map'' h'',
    multiMapAdd map key value h = Ok (VObject l, map', h')
    ∧ multiMapRemove map' key value h' = Ok (map'', h'')
    ∧ ∀ key', sm_has map'' key' = sm_has map key' ∧ sm_get map'' key' = sm_get map key'.
Proof.
  intros Htyped Hhas Hvalue.
  eexists _, _, _, _, _. split; [by apply multiMapAdd_absent|].
  split.
  - apply multiMapRemove_present. rewrite sm_get_set. by rewrite decide_True.
  - intros key'. cbn. rewrite decide_True by done.
    unfold unorderedRemoveItem_elems. cbn. rewrite strictEquals_refl by done. cbn.
    rewrite sm_has_delete, sm_get_delete, sm_has_set, sm_get_set.
    destruct (decide (key = key')) as [<-|]; [|done].
    split; [done|]. by rewrite sm_get_absent.
Qed.

Lemma X24_multiMapAdd_then_remove_witness :
  ∃ l map' h' map'' h'',
    multiMapAdd exampleMultiMap "c" VNull exampleHeap = Ok (VObject l, map', h')
    ∧ multiMapRemove map' "c" VNull h' = Ok (map'', h'')
    ∧ sm_has map'' "c" = false.
Proof.
  destruct (X24_multiMapAdd_then_remove exampleMultiMap "c" VNull exampleHeap
              exampleMultiMap_typed) as (l & map' & h' & map'' & h'' & Hadd & Hremove & Hsame).
  - vm_compute. reflexivity.
  - discriminate.
  - exists l, map', h', map'', h''. split; [exact Hadd|]. split; [exact Hremove|].
    rewrite (proj1 (Hsame "c")). vm_compute. reflexivity.
Defined.

(** ** Equality, again *)

(** X25. With the default comparison [_equalMaps] is transitive. *)
Theorem X25_equalMaps_transitive {M : Type} `{StringMapLaws M}
    (fullyFeaturedMaps : option (FullyFeaturedMap M))
    (fullyFeaturedMaps_laws : ∀ ff, fullyFeaturedMaps = Some ff → FullyFeaturedMapLaws M ff)
    (σ : Store M) (a b c : Ref) :
  _equalMaps fullyFeaturedMaps σ a b None = true →
  _equalMaps fullyFeaturedMaps σ b c None = true →
  _equalMaps fullyFeaturedMaps σ a c None = true.
Proof.
  destruct (decide (a = b)) as [->|Hab]; [done|].
  destruct (decide (b = c)) as [->|Hbc]; [done|].
  destruct (decide (a = c)) as [->|Hac].
  { intros _ _. unfold _equalMaps. by rewrite bool_decide_eq_true_2. }
  destruct a as [| |la], b as [| |lb], c as [| |lc];
    try (unfold _equalMaps; rewrite !bool_decide_eq_false_2 by done; cbn; done).
  rewrite (_equalMaps_objects _ fullyFeaturedMaps_laws σ la lb) by congruence.
  rewrite (_equalMaps_objects _ fullyFeaturedMaps_laws σ lb lc) by congruence.
  rewrite (_equalMaps_objects _ fullyFeaturedMaps_laws σ la lc) by congruence.
  cbn. intros [Hab1 Hab2] [Hbc1 Hbc2]. split.
  - intros key Hhas. destruct (Hab1 key Hhas) as [Hb Heq1].
    destruct (Hbc1 key Hb) as [Hc Heq2]. split; [done|].
    apply strictEquals_true in Heq1. by rewrite Heq1.
  - intros key Hhas. by apply Hab2, Hbc2.
Qed.

Lemma X25_equalMaps_transitive_witness :
  _equalMaps (M := ShimStringMap) None exampleMapStore (RObject 0%nat) (RObject 2%nat) None
  = true.
Proof.
  apply (X25_equalMaps_transitive (M := ShimStringMap) None
           (λ ff Hff, ltac:(discriminate Hff))
           exampleMapStore (RObject 0%nat) (RObject 1%nat) (RObject 2%nat));
    vm_compute; reflexivity.
Defined.

(** X26. On two distinct records, when no own field of [left] holds
    [undefined] and [right] inherits nothing, [equalOwnProperties] with
    the default comparison is the symmetric equality of own fields: true
    exactly when every own field of [left] is an own field of [right]
    with an identical value and every own field of [right] is an own field
    of [left]. *)
Theorem X26_equalOwnProperties_without_undefined :
  ∀ (σ : Store MapLike) (l r : loc),
    l ≠ r →
    (∀ key, hasOwnProperty_call (σ l) key = true → MapLike_read (σ l) key ≠ VUndefined) →
    MapLike_inherited (σ r) = ∅ →
    equalOwnProperties σ (RObject l) (RObject r) None = true
    ↔ (∀ key, hasOwnProperty_call (σ l) key = true →
              hasOwnProperty_call (σ r) key = true
              ∧ strictEquals (MapLike_read (σ l) key) (MapLike_read (σ r) key) = true)
      ∧ (∀ key, hasOwnProperty_call (σ r) key = true →
                hasOwnProperty_call (σ l) key = true).
Proof.
  intros σ l r Hne Hdefined Hinherited.
  rewrite equalOwnProperties_objects by done. cbn. split.
  - intros [Hleft Hright]. split; [|done]. intros key Hown. split; [|by apply Hleft].
    specialize (Hleft key Hown). apply strictEquals_true in Hleft.
    destruct (hasOwnProperty_call (σ r) key) eqn:Hr; [done|].
    exfalso. apply (Hdefined key Hown). rewrite Hleft.
    apply bool_decide_eq_false in Hr. unfold MapLike_read.
    destruct (MapLike_own (σ r) !! key) eqn:Hlookup; [exfalso; apply Hr; eauto|].
    by rewrite Hinherited, lookup_empty.
  - intros [Hleft Hright]. split; [|done]. intros key Hown. by apply Hleft.
Qed.

Lemma X26_equalOwnProperties_without_undefined_witness :
  equalOwnProperties exampleDictionaryStore (RObject 0%nat) (RObject 1%nat) None = true.
Proof.
  apply (X26_equalOwnProperties_without_undefined exampleDictionaryStore 0%nat 1%nat).
  - done.
  - intros key Hown. unfold hasOwnProperty_call in Hown. cbn in Hown.
    apply bool_decide_eq_true in Hown as [value Hown].
    apply lookup_insert_Some in Hown as [[<- <-]|[_ Hown]]; [vm_compute; discriminate|].
    by rewrite lookup_empty in Hown.
  - reflexivity.
  - split; intros key Hown; [split; [exact Hown|]|exact Hown].
    unfold hasOwnProperty_call in Hown. cbn in Hown.
    apply bool_decide_eq_true in Hown as [value Hown].
    apply lookup_insert_Some in Hown as [[<- <-]|[_ Hown]]; [vm_compute; reflexivity|].
    by rewrite lookup_empty in Hown.
Defined.

(** X27. The record that [mapLikeOfMap] makes from a map owns exactly the
    entries of the map and inherits nothing: [hasProperty] and
    [getProperty] on it agree with [has] and [get] on the map, and a plain
    read of a key that the map does not have gives [undefined]. *)
Theorem X27_mapLikeOfMap_entries {M : Type} `{StringMapLaws M} (map : M) (key : string) :
  hasProperty (mapLikeOfMap map) key = sm_has map key
  ∧ getProperty (mapLikeOfMap map) key = sm_get map key
  ∧ MapLike_read (mapLikeOfMap map) key = sm_get map key.
Proof.
  unfold getProperty, hasProperty, hasOwnProperty_call, MapLike_read.
  rewrite mapLikeOfMap_own. cbn.
  destruct (sm_has map key) eqn:Hhas.
  - by rewrite bool_decide_eq_true_2 by eauto.
  - rewrite bool_decide_eq_false_2 by (by intros [? ?]).
    rewrite lookup_empty. by rewrite sm_get_absent.
Qed.

Lemma X27_mapLikeOfMap_entries_witness :
  MapLike_read (mapLikeOfMap exampleShimMap) "toString" = VUndefined.
Proof.
  etrans; [apply (X27_mapLikeOfMap_entries (M := ShimStringMap))|].
  vm_compute. reflexivity.
Defined.

(** ** Multimaps over arrays *)

(** X28. On a map whose keys hold arrays: [multiMapAdd] appends the value
    to the array of a key that the map has, and gives a key that it does
    not have a new array with the value as only element; [multiMapRemove]
    takes one element that is [===] to the value out of the array of the
    key, when there is one, keeping the other elements in some order, and
    deletes the key when the array is empty afterwards; with a key that
    the map does not have, or with a value that is [===] to no element of
    an array that is not empty, it leaves the map and the arrays as they
    are. *)
Theorem X28_multiMap_on_arrays {M : Type} `{StringMapLaws M}
    (map : M) (key : string) (value : Value) (h : Heap) :
  MultiMap_typed map →
  (sm_has map key = true →
     ∃ l h', sm_get map key = VObject l
       ∧ multiMapAdd map key value h = Ok (VObject l, map, h')
       ∧ Heap_arrays h' l = Heap_arrays h l ++ [value])
  ∧ (sm_has map key = false →
     ∃ l map' h', multiMapAdd map key value h = Ok (VObject l, map', h')
       ∧ sm_has map' key = true
       ∧ sm_get map' key = VObject l
       ∧ Heap_arrays h' l = [value])
  ∧ (sm_has map key = true →
     ∃ l map' h', sm_get map key = VObject l
       ∧ multiMapRemove map key value h = Ok (map', h')
       ∧ (occursIn (Heap_arrays h l) value = true →
            Heap_arrays h l ≡ₚ value :: Heap_arrays h' l)
       ∧ (Heap_arrays h' l = [] → map' = sm_delete key map ∧ sm_has map' key = false)
       ∧ (Heap_arrays h' l ≠ [] → map' = map)
       ∧ (occursIn (Heap_arrays h l) value = false → Heap_arrays h l ≠ [] →
            map' = map
            ∧ Heap_next h' = Heap_next h
            ∧ ∀ l', Heap_arrays h' l' = Heap_arrays h l'))
  ∧ (sm_has map key = false → multiMapRemove map key value h = Ok (map, h)).
Proof.
  intros Htyped. split; [|split; [|split]].
  - intros [l Hget]%Htyped. eexists l, _. split; [done|].
    split; [by apply multiMapAdd_present|]. apply Heap_write_same.
  - intros Hhas. eexists _, _, _. split; [by apply multiMapAdd_absent|].
    rewrite sm_has_set, sm_get_set. cbn.
    destruct (decide (key = key)); [|done].
    destruct (decide (Heap_next h = Heap_next h)); done.
  - intros [l Hget]%Htyped. eexists l, _, _. split; [done|].
    split; [by apply multiMapRemove_present|].
    rewrite Heap_write_same.
    split; [apply unorderedRemoveItem_elems_Permutation|].
    split; [|split].
    + intros ->. rewrite bool_decide_eq_true_2 by done. split; [done|].
      rewrite sm_has_delete. by destruct (decide (key = key)).
    + intros Hne. by rewrite bool_decide_eq_false_2.
    + intros Habsent Hne. rewrite unorderedRemoveItem_elems_absent by done.
      rewrite bool_decide_eq_false_2 by done. split; [done|]. split; [done|].
      intros l'. cbn. by destruct (decide (l' = l)) as [->|].
  - apply multiMapRemove_absent.
Qed.

Lemma X28_multiMap_on_arrays_witness :
  ∃ l h', sm_get exampleMultiMap "a" = VObject l
    ∧ multiMapAdd exampleMultiMap "a" (VNumber (Integer 3)) exampleHeap
      = Ok (VObject l, exampleMultiMap, h')
    ∧ Heap_arrays h' l
      = [VNumber (Integer 1); VNumber (Integer 2); VNumber (Integer 3)].
Proof.
  destruct (proj1 (X28_multiMap_on_arrays exampleMultiMap "a" (VNumber (Integer 3)) exampleHeap
                     exampleMultiMap_typed))
    as (l & h' & Hget & Hadd & Harray).
  { vm_compute. reflexivity. }
  exists l, h'. split; [exact Hget|]. split; [exact Hadd|].
  rewrite Harray. vm_compute in Hget. injection Hget as <-. reflexivity.
Defined.
